(** * Resilience layer of the event-management backend

    A shallow embedding of [services/index.js] (the [/addEvent] route with its
    retry loop, its failure window, its circuit flag and its recovery probe)
    and of the [addEvent] resolver of [mock-server/index.js].

    JavaScript numbers that hold millisecond clock readings and delays are
    integers far below 2^53, so they are modelled by [Z] with exact
    arithmetic.  JavaScript objects used as records are finite maps from
    property names to values. *)

From stdpp Require Import base decidable option list sorting strings gmap fin_maps pretty.
From Stdlib Require Import ZArith Lia.
From Equations Require Import Equations.

Local Open Scope Z_scope.

(** ** Module-level constants (services/index.js, lines 32-41) *)

Definition FAILURE_WINDOW : Z := 30 * 1000.
Definition FAILURE_THRESHOLD : nat := 3.
Definition BACKOFF_TIME : Z := 30 * 1000.
Definition MAX_RETRIES : nat := 3.
Definition INITIAL_RETRY_DELAY : Z := 1000.

(** ** The failure window

    [failureTimestamps] is an array of clock readings; the two loops
    [while (failureTimestamps.length && now - failureTimestamps[0] >
    FAILURE_WINDOW) failureTimestamps.shift()] (lines 144-146 and 157-159)
    are the same function of the array and of [now]. *)

Fixpoint prune (now : Z) (failureTimestamps : list Z) : list Z :=
  match failureTimestamps with
  | [] => []
  | head :: rest =>
      if now - head >? FAILURE_WINDOW then prune now rest
      else failureTimestamps
  end.

(** An entry is stale at [now] when the loop's test holds of it. *)
Definition stale (now e : Z) : Prop := now - e > FAILURE_WINDOW.
Definition fresh (now e : Z) : Prop := now - e ≤ FAILURE_WINDOW.

Global Instance stale_dec now e : Decision (stale now e).
Proof. unfold stale. apply _. Defined.
Global Instance fresh_dec now e : Decision (fresh now e).
Proof. unfold fresh. apply _. Defined.

(** ** JSON values and objects

    A property value is a JSON scalar; any other value (a fraction, an array,
    a nested object) is carried opaquely by its JSON text together with the
    string JavaScript converts it to.  An object is a finite map from
    property names to values. *)

Inductive jsval :=
| JNum (n : Z)
| JStr (s : string)
| JBool (b : bool)
| JNull
| JOther (json to_string : string).

Abbreviation obj := (gmap string jsval).

(** Object spread [{...source}] inside an object literal whose earlier
    properties are [target]: every own property of [source] is defined on the
    object under construction, replacing a property of the same name. *)
Definition spread (source target : obj) : obj :=
  map_fold (λ key value acc, <[key := value]> acc) target source.

(** [request.body] is [undefined] when the request carries no payload;
    spreading [undefined] copies nothing. *)
Definition spread_body (body : option obj) (target : obj) : obj :=
  match body with
  | None => target
  | Some o => spread o target
  end.

(** What [resp.json()] resolves to: [data.id] (line 148) throws on [null],
    reads the property of an object, and is [undefined] on a scalar. *)
Inductive data :=
| DNull
| DObject (o : obj)
| DScalar (v : jsval).

Inductive error :=
| ServiceError (status : Z)   (* new Error(`External service error: ${resp.status}`) *)
| FetchError (msg : string)   (* rejection of fetch(...) or of resp.json() *)
| TypeError (msg : string).   (* reading a property of null *)

Definition data_id (d : data) : option jsval + error :=
  match d with
  | DNull => inr (TypeError "Cannot read properties of null (reading 'id')")
  | DObject o => inl (o !! "id")
  | DScalar _ => inl None
  end.

(** ** The host: clock, network, timers *)

(** A request of [fetch]: [body] is the object handed to [JSON.stringify].
    Both call sites send it with [Content-Type: application/json]. *)
Record request := { url : string; method : string; body : obj }.

(** The settled state of [fetch(url, init)]: a rejection, or a response with
    its [ok] flag, its [status], and what [resp.json()] would settle to. *)
Inductive fetched :=
| Rejected (e : error)
| Response (ok : bool) (status : Z) (json : data + error).

Class Host (World : Type) := {
  clock : World → Z * World;                  (* Date.now(), new Date().getTime() *)
  fetch : request → World → fetched * World;  (* await fetch(url, init) *)
  sleep : Z → World → World                   (* await new Promise(r => setTimeout(r, delay)) *)
}.

Inductive level := LInfo | LWarn | LError.

(** Observable actions, in the order they happen. *)
Inductive effect :=
| EInvoke (attempt : nat)            (* retryWithBackoff calls fn() *)
| ESleep (delay : Z)                 (* the caller is suspended for [delay] ms *)
| EFetch (req : request)             (* one call to the downstream service *)
| ELog (lvl : level) (msg : string). (* fastify.log.* *)

(** The requests sent downstream and the delays slept, read off a trace. *)
Definition fetches (tr : list effect) : list request :=
  omap (λ e, match e with EFetch r => Some r | _ => None end) tr.
Definition sleeps (tr : list effect) : list Z :=
  omap (λ e, match e with ESleep d => Some d | _ => None end) tr.
Definition invocations (tr : list effect) : list nat :=
  omap (λ e, match e with EInvoke a => Some a | _ => None end) tr.

(** ** Breaker state (lines 25-31)

    A timer armed with [setTimeout] is described by the callback it will run
    and the delay it was given.  There are two callbacks: the arrow function
    of line 171 and the named function [retry] of line 176. *)

Inductive callback := first_probe | retry.

Record timer := { handler : callback; delay : Z }.

Record breaker := {
  failureTimestamps : list Z;
  circuitOpen : bool;
  nextProbe : option timer   (* a Timeout handle, or null *)
}.

Definition initial : breaker :=
  {| failureTimestamps := []; circuitOpen := false; nextProbe := None |}.

(** [setTimeout(cb, BACKOFF_TIME)]: the handle returned, which is also the
    timer handed to the event loop. *)
Definition setTimeout (cb : callback) (ms : Z) : timer :=
  {| handler := cb; delay := ms |}.

(** Replies of the route.  Both rejections carry status 503 and differ in
    their [error] field. *)
Inductive reply :=
| Sent (d : data)                      (* reply.send(data) *)
| Unavailable (err message : string)   (* reply.code(503).send({error, message}) *)
| ServerError (e : error).             (* the handler itself rejected *)

Definition CircuitOpen : reply :=
  Unavailable "Circuit breaker open"
    "External service temporarily unavailable. Please try again later.".
Definition RetriesExhausted : reply :=
  Unavailable "Could not add event" "External service unavailable after retries".

Definition addEvent_url : string := "http://event.com/addEvent".

(** The payload of the recovery probe (line 96). *)
Definition probe_payload : obj :=
  {[ "name" := JStr "__probe__"; "userId" := JStr "probe" ]}.
Definition probe_request : request :=
  {| url := addEvent_url; method := "POST"; body := probe_payload |}.

(** *** The synchronous blocks of the route and of the probe

    Between two [await]s JavaScript runs to completion, so each block below
    is one atomic function of the breaker state. *)

(** Lines 143-146: the success branch prunes, whatever the circuit flag. *)
Definition on_success (now : Z) (b : breaker) : breaker :=
  {| failureTimestamps := prune now (failureTimestamps b);
     circuitOpen := circuitOpen b;
     nextProbe := nextProbe b |}.

(** Lines 153-185: the catch block up to the scheduling of the probe.
    Returns the new state, the timers it armed and what it logged. *)
Definition on_failure (now : Z) (b : breaker)
  : breaker * list timer * list effect :=
  let pushed := failureTimestamps b ++ [now] in
  let pruned := prune now pushed in
  if (FAILURE_THRESHOLD <=? length pruned)%nat && negb (circuitOpen b) then
    let opened := ELog LError "[Circuit Breaker] OPENED - threshold exceeded" in
    match nextProbe b with
    | None =>
        let t := setTimeout first_probe BACKOFF_TIME in
        ({| failureTimestamps := pruned; circuitOpen := true;
            nextProbe := Some t |}, [t], [opened])
    | Some _ =>
        ({| failureTimestamps := pruned; circuitOpen := true;
            nextProbe := nextProbe b |}, [], [opened])
    end
  else
    ({| failureTimestamps := pruned; circuitOpen := circuitOpen b;
        nextProbe := nextProbe b |}, [], []).

(** Lines 98-108: [probeExternalService] once its [fetch] has settled.
    Returns the boolean it resolves to, the new state and what it logged. *)
Definition probe_settled (r : fetched) (b : breaker)
  : bool * breaker * list effect :=
  match r with
  | Response true _ _ =>
      (true,
       {| failureTimestamps := []; circuitOpen := false; nextProbe := None |},
       [ELog LInfo "[Circuit Breaker] Service recovered - CLOSED"])
  | Response false _ _ => (false, b, [])
  | Rejected _ =>
      (false, b,
       [ELog LWarn "[Circuit Breaker] Probe failed, service still unavailable"])
  end.

(** Lines 174-182 and 178-180: what a timer callback does once the probe it
    awaited has resolved to [recovered]. *)
Definition callback_resumed (cb : callback) (recovered : bool) (b : breaker)
  : breaker * list timer :=
  match cb with
  | first_probe =>
      if negb recovered then
        let t := setTimeout retry BACKOFF_TIME in
        ({| failureTimestamps := failureTimestamps b;
            circuitOpen := circuitOpen b; nextProbe := Some t |}, [t])
      else (b, [])
  | retry =>
      if negb recovered then
        let t := setTimeout retry BACKOFF_TIME in
        ({| failureTimestamps := failureTimestamps b;
            circuitOpen := circuitOpen b; nextProbe := Some t |}, [t])
      else (b, [])
  end.

(** ** Asynchronous code as state passing

    An [async] function is a function of the host world that returns its
    result, the world it leaves and the actions it performed. *)

Section Server.
Context {World : Type} `{Host World}.

Definition Eff (A : Type) : Type := World → A * World * list effect.

Definition ret {A} (a : A) : Eff A := λ w, (a, w, []).
Definition bind {A B} (m : Eff A) (k : A → Eff B) : Eff B := λ w,
  let '(a, w1, fx1) := m w in
  let '(b, w2, fx2) := k a w1 in
  (b, w2, fx1 ++ fx2).

Definition emit (e : effect) : Eff unit := λ w, (tt, w, [e]).
Definition log (lvl : level) (msg : string) : Eff unit := emit (ELog lvl msg).
Definition Date_now : Eff Z := λ w, let '(t, w1) := clock w in (t, w1, []).
Definition do_fetch (req : request) : Eff fetched := λ w,
  let '(r, w1) := fetch req w in (r, w1, [EFetch req]).

(** *** retryWithBackoff (lines 51-88)

    [fn] settles to [inl result] when it resolves and to [inr error] when it
    rejects.  The outcome of [retryWithBackoff] is a returned value or a thrown
    one; [lastError] is [undefined] until the first failure, so the [throw]
    of line 87 throws an optional error.  [maxRetries] and [attempt] count
    attempts and are natural numbers (the route passes no bound, so the
    default 3 applies; a negative or fractional bound is not covered); the loop
    [for (attempt = 0; attempt <= maxRetries; attempt++)] terminates because
    [maxRetries + 1 - attempt] decreases.  The trace lists, for each
    iteration, the call of [fn], the actions of [fn] itself, the log line and
    the delay. *)

Inductive outcome (A : Type) :=
| Returned (result : A)
| Thrown (error : option error).
Global Arguments Returned {A} result.
Global Arguments Thrown {A} error.

Equations? retry_loop {A} (fn : Eff (A + error)) (maxRetries : nat)
    (baseDelay : Z) (attempt : nat) (lastError : option error) (w : World)
  : outcome A * World * list effect
  by wf (S maxRetries - attempt)%nat lt :=
retry_loop fn maxRetries baseDelay attempt lastError w
    with decide (attempt ≤ maxRetries)%nat := {
  | right _ => (Thrown lastError, w, []);
  | left _ with fn w := {
    | (inl result, w1, fx) =>
        (Returned result, w1,
         EInvoke attempt :: fx ++
         (if decide (0 < attempt)%nat
          then [ELog LInfo "Request succeeded after retry"] else []));
    | (inr error, w1, fx) with decide (attempt = maxRetries) := {
      | left _ =>
          (Thrown (Some error), w1,
           EInvoke attempt :: fx ++ [ELog LError "All retry attempts exhausted"]);
      | right _ =>
          let delay := baseDelay * 2 ^ Z.of_nat attempt in
          let rest := retry_loop fn maxRetries baseDelay (S attempt)
                        (Some error) (sleep delay w1) in
          (rest.1.1, rest.1.2,
           EInvoke attempt :: fx ++
           [ELog LWarn "Request failed, retrying with exponential backoff";
            ESleep delay] ++ rest.2) } } }.
Proof. lia. Qed.

Definition retryWithBackoff {A} (fn : Eff (A + error)) (maxRetries : nat)
    (baseDelay : Z) : Eff (outcome A) :=
  retry_loop fn maxRetries baseDelay 0 None.

Global Instance Eff_ret : MRet Eff := @ret.
Global Instance Eff_bind : MBind Eff := λ A B k m, bind m k.

Definition emit_all (logged : list effect) : Eff unit := λ w, (tt, w, logged).

(** *** The retried operation (lines 124-140) *)

Definition downstream_call (request_body : option obj) : Eff (data + error) :=
  t ← Date_now;
  r ← do_fetch {| url := addEvent_url; method := "POST";
                  body := spread_body request_body {[ "id" := JNum t ]} |};
  mret (match r with
        | Rejected e => inr e
        | Response ok status json =>
            if negb ok then inr (ServiceError status) else json
        end).

(** *** The route handler (lines 111-193)

    The handler of one request run to completion with no other request
    interleaved.  It returns its reply, the breaker state and the timers it
    armed.  [err.message] at line 187 throws when the caught value is
    [undefined]. *)

Definition failure_branch (err : option error) (b : breaker)
  : Eff (reply * breaker * list timer) :=
  now ← Date_now;
  let '(b1, armed, logged) := on_failure now b in
  emit_all logged;;
  match err with
  | Some _ =>
      log LError "Failed to add event after all retries";;
      mret (RetriesExhausted, b1, armed)
  | None =>
      mret (ServerError
              (TypeError "Cannot read properties of undefined (reading 'message')"),
            b1, armed)
  end.

Definition addEvent (request_body : option obj) (b : breaker)
  : Eff (reply * breaker * list timer) :=
  if circuitOpen b then
    log LWarn "[Circuit Breaker] Request rejected - circuit is OPEN";;
    mret (CircuitOpen, b, [])
  else
    r ← retryWithBackoff (downstream_call request_body)
          MAX_RETRIES INITIAL_RETRY_DELAY;
    match r with
    | Returned d =>
        now ← Date_now;
        let b1 := on_success now b in
        match data_id d with
        | inl _ =>
            log LInfo "Event added successfully";;
            mret (Sent d, b1, [])
        | inr e => failure_branch (Some e) b1
        end
    | Thrown err => failure_branch err b
    end.

(** *** The probe (lines 91-109) and the timer callbacks (lines 171-183) *)

Definition probeExternalService (b : breaker) : Eff (bool * breaker) :=
  r ← do_fetch probe_request;
  let '(recovered, b1, logged) := probe_settled r b in
  emit_all logged;;
  mret (recovered, b1).

Definition timer_callback (cb : callback) (b : breaker)
  : Eff (breaker * list timer) :=
  '(recovered, b1) ← probeExternalService b;
  mret (callback_resumed cb recovered b1).

End Server.

Global Arguments Eff : clear implicits.

(** ** The event loop

    Requests overlap: a handler is suspended at [await retryWithBackoff]
    while other handlers, timers and probes run.  The server is the breaker
    state together with what the event loop holds: the armed timers, the
    timer callbacks suspended in a probe, and the number of handlers
    suspended in their retry loop.  An event is one synchronous block. *)

Inductive probe_task :=
| Fetching (cb : callback)                    (* suspended at the probe's fetch *)
| Resuming (cb : callback) (recovered : bool). (* the probe has returned *)

Record server := {
  state : breaker;
  timers : list timer;
  probes : list probe_task;
  inflight : nat
}.

Definition boot : server :=
  {| state := initial; timers := []; probes := []; inflight := 0 |}.

Inductive event :=
| RequestArrived                          (* lines 112-124 *)
| RequestSucceeded (now : Z)              (* lines 142-149 *)
| RequestSucceededNull (now now' : Z)     (* lines 142-148, then 151-191 *)
| RequestFailed (now : Z)                 (* lines 151-191 *)
| TimerFired (i : nat)                    (* the i-th armed timer fires *)
| ProbeSettled (i : nat) (r : fetched)    (* lines 98-108 for the i-th task *)
| ProbeResumed (i : nat).                 (* lines 174-182 or 178-180 *)

(** [step] is [None] when the event cannot happen in that server. *)
Definition step (e : event) (s : server) : option server :=
  match e with
  | RequestArrived =>
      if circuitOpen (state s) then Some s
      else Some {| state := state s; timers := timers s; probes := probes s;
                   inflight := S (inflight s) |}
  | RequestSucceeded now =>
      match inflight s with
      | O => None
      | S n => Some {| state := on_success now (state s); timers := timers s;
                       probes := probes s; inflight := n |}
      end
  | RequestSucceededNull now now' =>
      match inflight s with
      | O => None
      | S n =>
          let '(b, armed, _) := on_failure now' (on_success now (state s)) in
          Some {| state := b; timers := timers s ++ armed;
                  probes := probes s; inflight := n |}
      end
  | RequestFailed now =>
      match inflight s with
      | O => None
      | S n =>
          let '(b, armed, _) := on_failure now (state s) in
          Some {| state := b; timers := timers s ++ armed;
                  probes := probes s; inflight := n |}
      end
  | TimerFired i =>
      match timers s !! i with
      | None => None
      | Some t =>
          Some {| state := state s; timers := delete i (timers s);
                  probes := probes s ++ [Fetching (handler t)];
                  inflight := inflight s |}
      end
  | ProbeSettled i r =>
      match probes s !! i with
      | Some (Fetching cb) =>
          let '(recovered, b, _) := probe_settled r (state s) in
          Some {| state := b; timers := timers s;
                  probes := <[i := Resuming cb recovered]> (probes s);
                  inflight := inflight s |}
      | _ => None
      end
  | ProbeResumed i =>
      match probes s !! i with
      | Some (Resuming cb recovered) =>
          let '(b, armed) := callback_resumed cb recovered (state s) in
          Some {| state := b; timers := timers s ++ armed;
                  probes := delete i (probes s); inflight := inflight s |}
      | _ => None
      end
  end.

Fixpoint run (es : list event) (s : server) : option server :=
  match es with
  | [] => Some s
  | e :: es => match step e s with Some s1 => run es s1 | None => None end
  end.

(** ** The downstream service of the repository (mock-server/index.js)

    The resolver registered for [POST http://event.com/addEvent] and the two
    stores it writes to. *)

Module Mock.

Record user := {
  userName : string;
  user_id : Z;
  email : string;
  user_events : list (option jsval)
}.

Record store := {
  requestCount : Z;
  users : gmap string user;     (* userStore.users *)
  events : gmap string obj      (* eventStore.events *)
}.

(** [object[value]] converts [value] to a property name; a missing property
    reads as [undefined].  A number is named by its decimal digits, as
    JavaScript names it below [10^21].  The stores hold their own entries
    only: the properties an object inherits from [Object.prototype] are not
    part of the maps. *)
Definition property_key (v : option jsval) : string :=
  match v with
  | None => "undefined"
  | Some (JNum n) => pretty n
  | Some (JStr s) => s
  | Some (JBool true) => "true"
  | Some (JBool false) => "false"
  | Some JNull => "null"
  | Some (JOther _ text) => text
  end.

Inductive resolved :=
| Json (status : Z) (json : obj)   (* HttpResponse.json(body, {status}) *)
| Threw (e : error).               (* the resolver threw *)

Definition unavailable : obj :=
  {[ "success" := JBool false;
     "error" := JStr "Service temporarily unavailable";
     "message" := JStr "Event API is experiencing high load" ]}.

(** The branch taken by [if (requestCount <= 5 || requestCount == 0)] after
    [requestCount++]. *)
Definition accepting (m : store) : bool :=
  (requestCount m + 1 <=? 5) || (requestCount m + 1 =? 0).

Definition addEvent (requestBody : obj) (m : store) : resolved * store :=
  let count := requestCount m + 1 in
  if (count <=? 5) || (count =? 0) then
    (* eventStore.addEvent(requestBody) *)
    let stored := <[property_key (requestBody !! "id") := requestBody]> (events m) in
    (* userStore.addEventTouUser(requestBody.userId, requestBody.id) *)
    let key := property_key (requestBody !! "userId") in
    match users m !! key with
    | None =>
        (Threw (TypeError "Cannot read properties of undefined (reading 'events')"),
         {| requestCount := count; users := users m; events := stored |})
    | Some u =>
        let u' := {| userName := userName u; user_id := user_id u;
                     email := email u;
                     user_events := user_events u ++ [requestBody !! "id"] |} in
        (Json 200 {[ "success" := JBool true ]},
         {| requestCount := count; users := <[key := u']> (users m);
            events := stored |})
    end
  else
    let count' := if count >=? 15 then 0 else count in
    (Json 503 unavailable,
     {| requestCount := count'; users := users m; events := events m |}).

Definition event (id : Z) (name : string) (userId : Z) : obj :=
  {[ "id" := JNum id; "name" := JStr name; "userId" := JNum userId;
     "details" := JStr "This is the first event" ]}.

(** The stores as the module initialises them. *)
Definition start : store :=
  {| requestCount := 0;
     users :=
       {[ "1" := {| userName := "user1"; user_id := 1; email := "hello@gmail.com";
                    user_events := [Some (JStr "event-1"); Some (JStr "event-3")] |};
          "2" := {| userName := "user2"; user_id := 2; email := "hello2@gmail.com";
                    user_events := [Some (JStr "event-2")] |};
          "3" := {| userName := "user3"; user_id := 2; email := "hello3@gmail.com";
                    user_events := [Some (JStr "event-4")] |} ]};
     events :=
       {[ "event-1" := event 1 "Event 1" 1;
          "event-2" := event 1 "Event 2" 2;
          "event-3" := event 1 "Event 1" 1;
          "event-4" := event 1 "Event 4" 3 ]} |}.

End Mock.

(** ** A scripted host, to run the model on concrete inputs

    The world holds the clock and the settlements of the fetches still to
    come; a fetch takes 100 ms and, once the script is used up, rejects. *)

Record scripted := { time : Z; script : list fetched }.

Global Instance scripted_host : Host scripted := {|
  clock w := (time w, w);
  fetch _ w :=
    match script w with
    | [] => (Rejected (FetchError "fetch failed"), {| time := time w + 100; script := [] |})
    | r :: rest => (r, {| time := time w + 100; script := rest |})
    end;
  sleep ms w := {| time := time w + ms; script := script w |}
|}.

Definition unavailable_503 : fetched :=
  Response false 503 (inl (DObject Mock.unavailable)).
Definition created_200 : fetched :=
  Response true 200 (inl (DObject {[ "success" := JBool true ]})).

(** ** Vocabulary of the statements *)

(** A probe settles as a recovery exactly when its response has [ok] set. *)
Definition recovers (r : fetched) : bool :=
  match r with
  | Response true _ _ => true
  | _ => false
  end.

(** A suspended timer callback still owes a reschedule unless its probe has
    already reported a recovery. *)
Definition live (p : probe_task) : bool :=
  match p with
  | Fetching _ => true
  | Resuming _ recovered => negb recovered
  end.

Definition weight (p : probe_task) : nat := if live p then 1 else 0.

Definition live_count (ps : list probe_task) : nat :=
  length (filter (λ p, live p = true) ps).

(** Probes pending: timers armed and not yet fired, and fired timers whose
    callback has not yet finished with a failed probe. *)
Definition pending (s : server) : nat :=
  (length (timers s) + live_count (probes s))%nat.

(** The circuit is open exactly while one probe is pending, and a closed
    circuit holds no probe handle: as a property of the breaker state and of
    a count [n] of pending probes, and of a server. *)
Definition agrees (b : breaker) (n : nat) : Prop :=
  if circuitOpen b then n = 1%nat else nextProbe b = None ∧ n = 0%nat.

Definition consistent (s : server) : Prop := agrees (state s) (pending s).

(** The one event that empties the window and closes the circuit: a probe
    settling as a recovery. *)
Definition resets (e : event) : bool :=
  match e with
  | ProbeSettled _ r => recovers r
  | _ => false
  end.

(** The clock readings an event carries, and the one it records as a
    failure. *)
Definition stamps (e : event) : list Z :=
  match e with
  | RequestSucceeded now | RequestFailed now => [now]
  | RequestSucceededNull now now' => [now; now']
  | _ => []
  end.

Definition recorded (e : event) : list Z :=
  match e with
  | RequestFailed now => [now]
  | RequestSucceededNull _ now' => [now']
  | _ => []
  end.

Definition failures (es : list event) : list Z := es ≫= recorded.

(** One failed recovery attempt when a single timer is armed and no callback
    is suspended: the timer fires, its probe settles, its callback resumes. *)
Definition probe_round (r : fetched) : list event :=
  [TimerFired 0; ProbeSettled 0 r; ProbeResumed 0].

(** Effects of a trace that are downstream calls all satisfy [P]. *)
Definition calls_satisfy (P : request → Prop) (tr : list effect) : Prop :=
  Forall P (fetches tr).

(** A breaker that three failures have opened and whose first probe has
    failed. *)
Definition tripped : breaker :=
  {| failureTimestamps := [0; 1000; 2000]; circuitOpen := true;
     nextProbe := Some (setTimeout retry BACKOFF_TIME) |}.

(** An operation of the scripted host that fails whenever it is invoked and
    reports the time of the invocation. *)
Definition failing_operation : Eff scripted (data + error) :=
  λ w, (inr (ServiceError (time w)), w, []).


(** ** The stores of the mock (mock-server/index.js, lines 5-79)

    The methods of [userStore] and [eventStore] that read or write one
    entry.  [addEventTouUser] throws when the user is missing, which is
    [None] here. *)

Module Stores.

Definition addUser (u : Mock.user) (users : gmap string Mock.user)
  : gmap string Mock.user :=
  <[pretty (Mock.user_id u) := u]> users.

Definition getUser (id : option jsval) (users : gmap string Mock.user)
  : option Mock.user :=
  users !! Mock.property_key id.

Definition addEventTouUser (userId eventId : option jsval)
    (users : gmap string Mock.user) : option (gmap string Mock.user) :=
  match users !! Mock.property_key userId with
  | None => None
  | Some u =>
      Some (<[Mock.property_key userId :=
               {| Mock.userName := Mock.userName u;
                  Mock.user_id := Mock.user_id u;
                  Mock.email := Mock.email u;
                  Mock.user_events := Mock.user_events u ++ [eventId] |}]> users)
  end.

Definition addEvent (event : obj) (events : gmap string obj) : gmap string obj :=
  <[Mock.property_key (event !! "id") := event]> events.

Definition getEvent (id : option jsval) (events : gmap string obj) : option obj :=
  events !! Mock.property_key id.

End Stores.


(** The resolver serving a sequence of requests, one after the other. *)
Fixpoint serve (bodies : list obj) (m : Mock.store)
  : list Mock.resolved * Mock.store :=
  match bodies with
  | [] => ([], m)
  | requestBody :: rest =>
      let '(r, m1) := Mock.addEvent requestBody m in
      let '(rs, m2) := serve rest m1 in
      (r :: rs, m2)
  end.

(** The body [downstream_call] sends for a payload when the clock reads
    [t] (lines 128-131). *)
Definition sent_body (request_body : option obj) (t : Z) : obj :=
  spread_body request_body {[ "id" := JNum t ]}.

(** Two more hosts to run the model on: a downstream that refuses every
    call with 503 and one that accepts every call, each call taking 100 ms.
    The world is the clock. *)

Record outage := { outage_time : Z }.

Global Instance outage_host : Host outage := {|
  clock w := (outage_time w, w);
  fetch _ w := (unavailable_503, {| outage_time := outage_time w + 100 |});
  sleep ms w := {| outage_time := outage_time w + ms |}
|}.

Record healthy := { healthy_time : Z }.

Global Instance healthy_host : Host healthy := {|
  clock w := (healthy_time w, w);
  fetch _ w := (created_200, {| healthy_time := healthy_time w + 100 |});
  sleep ms w := {| healthy_time := healthy_time w + ms |}
|}.

(** ** Further vocabulary *)

(** Line 75: the delay slept after the failed attempt number [attempt]. *)
Definition backoff (baseDelay : Z) (attempt : nat) : Z :=
  baseDelay * 2 ^ Z.of_nat attempt.

(** The delays Node's [setTimeout] honours as given are the whole numbers of
    milliseconds from 1 to [TIMEOUT_MAX]; it replaces any other by 1 ms. *)
Definition TIMEOUT_MAX : Z := 2147483647.

(** How [fn] must have settled for [retryWithBackoff] to end with an
    outcome; nothing settles to a thrown [undefined]. *)
Definition settlement {A} (o : outcome A) : option (A + error) :=
  match o with
  | Returned result => Some (inl result)
  | Thrown (Some e) => Some (inr e)
  | Thrown None => None
  end.

Definition is_log (e : effect) : Prop :=
  match e with
  | ELog _ _ => True
  | _ => False
  end.

(** Three failures of a list, in order, the last within [FAILURE_WINDOW] of
    the first. *)
Definition burst (l : list Z) : Prop :=
  ∃ a b c, [a; b; c] `sublist_of` l ∧ c - a ≤ FAILURE_WINDOW.

(** All the clock readings of a run of events, in order. *)
Definition all_stamps (es : list event) : list Z := es ≫= stamps.

(** * Properties *)

(** ** Lemmas on [prune] *)

Lemma prune_cons_stale now h l : stale now h → prune now (h :: l) = prune now l.
Proof.
  unfold stale; intros H; simpl.
  destruct (Z.gtb_spec (now - h) FAILURE_WINDOW); [done | lia].
Qed.

Lemma prune_cons_fresh now h l : fresh now h → prune now (h :: l) = h :: l.
Proof.
  unfold fresh; intros H; simpl.
  destruct (Z.gtb_spec (now - h) FAILURE_WINDOW); [lia | done].
Qed.

(** The loop only ever removes a prefix, and that prefix is stale. *)
Lemma prune_split now l :
  ∃ dropped, l = dropped ++ prune now l ∧ Forall (stale now) dropped.
Proof.
  induction l as [|h l (dropped & Hl & Hd)].
  - by exists [].
  - destruct (decide (stale now h)) as [Hs|Hs].
    + exists (h :: dropped). rewrite prune_cons_stale by done.
      split; [by rewrite Hl at 1 | by constructor].
    + exists []. rewrite prune_cons_fresh by (unfold stale, fresh in *; lia).
      by split.
Qed.

Lemma prune_suffix now l : prune now l `suffix_of` l.
Proof. destruct (prune_split now l) as (d & Hl & _). by exists d. Qed.

Lemma prune_length now l : (length (prune now l) ≤ length l)%nat.
Proof. apply suffix_length, prune_suffix. Qed.

(** Whatever the loop leaves starts with a fresh entry. *)
Lemma prune_head_fresh now l h t : prune now l = h :: t → fresh now h.
Proof.
  induction l as [|x l IH]; [done|].
  destruct (decide (stale now x)) as [Hs|Hs].
  - rewrite prune_cons_stale by done. exact IH.
  - rewrite prune_cons_fresh by (unfold stale, fresh in *; lia).
    intros [= -> _]. unfold stale, fresh in *; lia.
Qed.

(** Entries that are fresh at [now] survive the loop, with their
    multiplicity and order: any sublist of fresh entries is still a sublist
    afterwards. *)
Lemma prune_keeps_fresh now keep l :
  Forall (fresh now) keep → keep `sublist_of` l → keep `sublist_of` prune now l.
Proof.
  intros Hk. induction l as [|h l IH]; intros Hsub; [done|].
  destruct (decide (stale now h)) as [Hs|Hs].
  - rewrite prune_cons_stale by done. apply IH.
    destruct keep as [|k keep]; [apply sublist_nil_l|].
    apply sublist_cons_l in Hsub as (l1 & l2 & Heq & Hsub').
    destruct l1 as [|y l1]; simplify_eq/=.
    + apply Forall_cons in Hk as [Hk _]. unfold stale, fresh in *; lia.
    + transitivity (k :: l2); [by apply sublist_skip|].
      apply sublist_inserts_l. done.
  - by rewrite prune_cons_fresh by (unfold stale, fresh in *; lia).
Qed.

(** On a chronological array a fresh head makes every later entry fresh. *)
Lemma sorted_fresh_head now h l :
  Sorted Z.le (h :: l) → fresh now h → Forall (fresh now) (h :: l).
Proof.
  intros Hs Hh. apply Sorted_StronglySorted in Hs; [|intros x y z; lia].
  apply StronglySorted_inv in Hs as [_ Hall].
  constructor; [done|].
  eapply Forall_impl; [exact Hall|]. unfold fresh in *. intros; simpl in *; lia.
Qed.

Lemma prune_sorted_fresh now l :
  Sorted Z.le l → Forall (fresh now) (prune now l).
Proof.
  intros Hs.
  assert (Sorted Z.le (prune now l)) as Hs'.
  { destruct (prune_split now l) as (d & Hl & _).
    rewrite Hl in Hs. clear Hl. induction d; [done|].
    apply IHd. by apply Sorted_inv in Hs as [? _]. }
  destruct (prune now l) as [|h t] eqn:E; [constructor|].
  apply sorted_fresh_head; [done|]. by eapply prune_head_fresh.
Qed.

Lemma filter_all {A} (P : A → Prop) `{∀ x, Decision (P x)} (l : list A) :
  Forall P l → filter P l = l.
Proof.
  induction 1 as [|x l Hx _ IH]; [done|].
  rewrite filter_cons_True by done. by rewrite IH.
Qed.

Lemma filter_none {A} (P : A → Prop) `{∀ x, Decision (P x)} (l : list A) :
  Forall (λ x, ¬ P x) l → filter P l = [].
Proof.
  induction 1 as [|x l Hx _ IH]; [done|].
  by rewrite filter_cons_False.
Qed.

(** C8: on a chronologically ordered array, the pruning loop removes exactly
    the stale entries.  The array splits into the dropped prefix, all of
    whose entries satisfy [now - e > FAILURE_WINDOW], and the result, all of
    whose entries satisfy [now - e <= FAILURE_WINDOW]; so no entry inside the
    window is removed, none outside it is kept, and the result, being a
    suffix of the array, keeps its order.  Equivalently the result is the
    array filtered by freshness. *)
Theorem prune_removes_exactly_stale (now : Z) (l : list Z) :
  Sorted Z.le l →
  (∃ dropped, l = dropped ++ prune now l ∧
              Forall (λ e, now - e > FAILURE_WINDOW) dropped) ∧
  Forall (λ e, now - e ≤ FAILURE_WINDOW) (prune now l) ∧
  prune now l = filter (λ e, now - e ≤ FAILURE_WINDOW) l.
Proof.
  intros Hs. split; [apply prune_split|].
  split; [by apply prune_sorted_fresh|].
  destruct (prune_split now l) as (d & Hl & Hd).
  pose proof (prune_sorted_fresh now l Hs) as Hf.
  rewrite Hl at 2. rewrite filter_app.
  rewrite (filter_none (fresh now) d), (filter_all (fresh now)); [done..|].
  eapply Forall_impl; [exact Hd|]. unfold stale, fresh; intros; simpl in *; lia.
Qed.

Lemma prune_removes_exactly_stale_witness :
  Sorted Z.le [0; 1000; 25000; 31000] ∧
  prune 31000 [0; 1000; 25000; 31000] = [1000; 25000; 31000].
Proof.
  split; [repeat constructor; lia|].
  destruct (prune_removes_exactly_stale 31000 [0; 1000; 25000; 31000])
    as (_ & _ & ->); [repeat constructor; lia | reflexivity].
Defined.

Section RetryFacts.
Context {World : Type} `{Host World} {A : Type}.
Implicit Types (fn : Eff World (A + error)) (w : World).

Lemma retry_loop_eq fn maxRetries baseDelay attempt lastError w :
  retry_loop fn maxRetries baseDelay attempt lastError w =
  if decide (attempt ≤ maxRetries)%nat then
    match fn w with
    | (inl result, w1, fx) =>
        (Returned result, w1,
         EInvoke attempt :: fx ++
         (if decide (0 < attempt)%nat
          then [ELog LInfo "Request succeeded after retry"] else []))
    | (inr error, w1, fx) =>
        if decide (attempt = maxRetries) then
          (Thrown (Some error), w1,
           EInvoke attempt :: fx ++ [ELog LError "All retry attempts exhausted"])
        else
          let delay := baseDelay * 2 ^ Z.of_nat attempt in
          let rest := retry_loop fn maxRetries baseDelay (S attempt)
                        (Some error) (sleep delay w1) in
          (rest.1.1, rest.1.2,
           EInvoke attempt :: fx ++
           [ELog LWarn "Request failed, retrying with exponential backoff";
            ESleep delay] ++ rest.2)
    end
  else (Thrown lastError, w, []).
Proof.
  funelim (retry_loop fn maxRetries baseDelay attempt lastError w);
    clear Heqcall;
    try match goal with Hq : fn _ = _ |- _ => rewrite Hq end;
    repeat case_decide; first [done | lia].
Qed.

Lemma always_fails_step fn maxRetries baseDelay attempt lastError w e w1 fx :
  fn w = (inr e, w1, fx) → (attempt < maxRetries)%nat →
  retry_loop fn maxRetries baseDelay attempt lastError w =
  let rest := retry_loop fn maxRetries baseDelay (S attempt) (Some e)
                (sleep (baseDelay * 2 ^ Z.of_nat attempt) w1) in
  (rest.1.1, rest.1.2,
   EInvoke attempt :: fx ++
   [ELog LWarn "Request failed, retrying with exponential backoff";
    ESleep (baseDelay * 2 ^ Z.of_nat attempt)] ++ rest.2).
Proof.
  intros Hfn Hlt. rewrite retry_loop_eq, Hfn.
  destruct (decide (attempt ≤ maxRetries)%nat); [|lia].
  destruct (decide (attempt = maxRetries)); [lia|done].
Qed.

Lemma always_fails_last fn maxRetries baseDelay lastError w e w1 fx :
  fn w = (inr e, w1, fx) →
  retry_loop fn maxRetries baseDelay maxRetries lastError w =
  (Thrown (Some e), w1,
   EInvoke maxRetries :: fx ++ [ELog LError "All retry attempts exhausted"]).
Proof.
  intros Hfn. rewrite retry_loop_eq, Hfn.
  destruct (decide (maxRetries ≤ maxRetries)%nat); [|lia].
  destruct (decide (maxRetries = maxRetries)); done.
Qed.

(** C2: against an operation that fails on every invocation,
    [retryWithBackoff] with [maxRetries = 3] and [baseDelay = 1000] invokes
    the operation exactly four times, on the worlds [w0], [sleep 1000 w1],
    [sleep 2000 w2] and [sleep 4000 w3]: it is suspended for 1000, 2000 and
    4000 ms between consecutive attempts and not after the fourth.  It then
    throws the error of the fourth invocation. *)
Theorem retry_exhausts_after_four_attempts fn w0 :
  (∀ w, ∃ e w' fx, fn w = (inr e, w', fx)) →
  ∃ e0 e1 e2 e3 w1 w2 w3 w4 fx0 fx1 fx2 fx3,
    fn w0 = (inr e0, w1, fx0) ∧
    fn (sleep 1000 w1) = (inr e1, w2, fx1) ∧
    fn (sleep 2000 w2) = (inr e2, w3, fx2) ∧
    fn (sleep 4000 w3) = (inr e3, w4, fx3) ∧
    retryWithBackoff fn MAX_RETRIES INITIAL_RETRY_DELAY w0 =
    (Thrown (Some e3), w4,
     [EInvoke 0] ++ fx0 ++
     [ELog LWarn "Request failed, retrying with exponential backoff";
      ESleep 1000] ++
     [EInvoke 1] ++ fx1 ++
     [ELog LWarn "Request failed, retrying with exponential backoff";
      ESleep 2000] ++
     [EInvoke 2] ++ fx2 ++
     [ELog LWarn "Request failed, retrying with exponential backoff";
      ESleep 4000] ++
     [EInvoke 3] ++ fx3 ++ [ELog LError "All retry attempts exhausted"]).
Proof.
  intros Hfail.
  destruct (Hfail w0) as (e0 & w1 & fx0 & H0).
  destruct (Hfail (sleep 1000 w1)) as (e1 & w2 & fx1 & H1).
  destruct (Hfail (sleep 2000 w2)) as (e2 & w3 & fx2 & H2).
  destruct (Hfail (sleep 4000 w3)) as (e3 & w4 & fx3 & H3).
  exists e0, e1, e2, e3, w1, w2, w3, w4, fx0, fx1, fx2, fx3.
  repeat (split; [done|]).
  unfold retryWithBackoff, MAX_RETRIES, INITIAL_RETRY_DELAY.
  rewrite (always_fails_step _ _ _ _ _ _ _ _ _ H0) by lia.
  change (1000 * 2 ^ Z.of_nat 0) with 1000.
  rewrite (always_fails_step _ _ _ _ _ _ _ _ _ H1) by lia.
  change (1000 * 2 ^ Z.of_nat 1) with 2000.
  rewrite (always_fails_step _ _ _ _ _ _ _ _ _ H2) by lia.
  change (1000 * 2 ^ Z.of_nat 2) with 4000.
  rewrite (always_fails_last _ _ _ _ _ _ _ _ H3).
  reflexivity.
Qed.
End RetryFacts.

Lemma retry_exhausts_after_four_attempts_witness :
  (∀ w, ∃ e w' fx, failing_operation w = (inr e, w', fx)) ∧
  ∃ w tr,
    retryWithBackoff failing_operation MAX_RETRIES INITIAL_RETRY_DELAY
      {| time := 0; script := [] |} = (Thrown (Some (ServiceError 7000)), w, tr) ∧
    invocations tr = [0; 1; 2; 3]%nat ∧ sleeps tr = [1000; 2000; 4000].
Proof.
  assert (∀ w, ∃ e w' fx, failing_operation w = (inr e, w', fx)) as Hfail
    by (intros w; by eexists _, _, _).
  split; [exact Hfail|].
  destruct (retry_exhausts_after_four_attempts failing_operation
              {| time := 0; script := [] |} Hfail)
    as (e0 & e1 & e2 & e3 & w1 & w2 & w3 & w4 & fx0 & fx1 & fx2 & fx3
        & H0 & H1 & H2 & H3 & Hrun).
  unfold failing_operation in H0, H1, H2, H3.
  injection H0 as <- <- <-. injection H1 as <- <- <-.
  injection H2 as <- <- <-. injection H3 as <- <- <-.
  eexists _, _. split; [exact Hrun|]. by split.
Defined.

(** ** Object spread *)

Lemma spread_union (source target : obj) : spread source target = source ∪ target.
Proof.
  unfold spread.
  apply (map_fold_weak_ind (λ r m, r = m ∪ target)).
  - by rewrite (left_id_L ∅ (∪)).
  - intros key value m r _ ->. by rewrite insert_union_l.
Qed.

Lemma spread_body_union (request_body : option obj) (target : obj) :
  spread_body request_body target = default ∅ request_body ∪ target.
Proof.
  destruct request_body as [o|]; simpl.
  - apply spread_union.
  - by rewrite (left_id_L ∅ (∪)).
Qed.

(** ** The route handler *)

Section HandlerFacts.
Context {World : Type} `{Host World}.
Implicit Types (w : World) (b : breaker) (request_body : option obj).

Lemma addEvent_open request_body b w :
  circuitOpen b = true →
  addEvent request_body b w =
  ((CircuitOpen, b, []), w,
   [ELog LWarn "[Circuit Breaker] Request rejected - circuit is OPEN"]).
Proof. intros Hopen. unfold addEvent. by rewrite Hopen. Qed.

(** C6: a request handled while the circuit is open gets the [CircuitOpen]
    rejection at once.  The handler leaves the breaker state and the host
    world as they were, arms no timer, and its only action is one log line:
    it does not enter the retry loop, calls nothing downstream and sleeps for
    no delay. *)
Theorem open_circuit_rejects_untouched request_body b w :
  circuitOpen b = true →
  ∃ tr,
    addEvent request_body b w = ((CircuitOpen, b, []), w, tr) ∧
    invocations tr = [] ∧ fetches tr = [] ∧ sleeps tr = [].
Proof.
  intros Hopen. eexists. split; [by apply addEvent_open|done].
Qed.

(** What [downstream_call] does, in one equation. *)
Lemma downstream_call_eq request_body w :
  downstream_call request_body w =
  let '(t, w1) := clock w in
  let req := {| url := addEvent_url; method := "POST";
                body := spread_body request_body {[ "id" := JNum t ]} |} in
  let '(r, w2) := fetch req w1 in
  (match r with
   | Rejected e => inr e
   | Response ok status json =>
       if negb ok then inr (ServiceError status) else json
   end, w2, [EFetch req]).
Proof.
  unfold downstream_call, mbind, Eff_bind, bind, Date_now, do_fetch, mret,
    Eff_ret, ret.
  destruct (clock w) as [t w1]. simpl.
  destruct (fetch _ w1) as [r w2]. done.
Qed.

Lemma calls_satisfy_app P tr1 tr2 :
  calls_satisfy P tr1 → calls_satisfy P tr2 → calls_satisfy P (tr1 ++ tr2).
Proof.
  unfold calls_satisfy, fetches. rewrite omap_app, Forall_app. by split.
Qed.

Lemma calls_satisfy_cons P e tr :
  match e with EFetch r => P r | _ => True end →
  calls_satisfy P tr → calls_satisfy P (e :: tr).
Proof.
  unfold calls_satisfy, fetches. intros He Htr.
  destruct e; simpl; try done. by constructor.
Qed.

(** Traces made of log lines only call nothing. *)
Ltac quiet_trace :=
  unfold calls_satisfy; simpl; by repeat constructor.

Lemma retry_loop_calls {A} P (fn : Eff World (A + error))
    maxRetries baseDelay attempt lastError w :
  (∀ w', calls_satisfy P (fn w').2) →
  calls_satisfy P (retry_loop fn maxRetries baseDelay attempt lastError w).2.
Proof.
  intros Hfn.
  funelim (retry_loop fn maxRetries baseDelay attempt lastError w);
    clear Heqcall;
    try match goal with Hq : fn ?w = _ |- _ =>
          pose proof (Hfn w) as Hw; rewrite Hq in Hw; simpl in Hw end.
  - quiet_trace.
  - simpl. apply calls_satisfy_cons; [done|].
    apply calls_satisfy_app; [done|]. destruct (decide (0 < attempt)%nat); quiet_trace.
  - simpl. apply calls_satisfy_cons; [done|].
    apply calls_satisfy_app; [done|]. quiet_trace.
  - simpl. apply calls_satisfy_cons; [done|].
    apply calls_satisfy_app; [done|].
    do 2 (apply calls_satisfy_cons; [done|]). auto.
Qed.

Lemma failure_branch_calls P err b w :
  calls_satisfy P (failure_branch err b w).2.
Proof.
  unfold failure_branch, mbind, Eff_bind, bind, Date_now, emit_all, log, emit,
    mret, Eff_ret, ret.
  destruct (clock w) as [now w1]. simpl.
  destruct (on_failure now b) as [[b1 armed] logged] eqn:E. simpl.
  assert (calls_satisfy P logged) as Hl.
  { unfold on_failure in E.
    destruct (_ && _), (nextProbe b); injection E as <- <- <-; quiet_trace. }
  destruct err; simpl; rewrite ?app_nil_r;
    repeat (apply calls_satisfy_app; [done|]); quiet_trace.
Qed.

(** C10: on each attempt the retried operation reads the clock and sends one
    POST whose body is the request payload spread over [{id: t}], [t] being
    that clock reading; every downstream call of the handler has such a
    body.  The spread is the payload merged over the [id] field: a payload
    that carries its own [id] keeps it, otherwise [id] is [t], and every
    other property is the payload's. *)
Theorem downstream_body_spreads_payload_over_id request_body b w :
  (∀ w', fetches (downstream_call request_body w').2 =
         [{| url := addEvent_url; method := "POST";
             body := spread_body request_body
                       {[ "id" := JNum (clock w').1 ]} |}]) ∧
  calls_satisfy
    (λ r, url r = addEvent_url ∧
          ∃ t, body r = spread_body request_body {[ "id" := JNum t ]})
    (addEvent request_body b w).2 ∧
  ∀ t,
    spread_body request_body {[ "id" := JNum t ]}
    = default ∅ request_body ∪ {[ "id" := JNum t ]} ∧
    spread_body request_body {[ "id" := JNum t ]} !! "id"
    = Some (default (JNum t) (default ∅ request_body !! "id")) ∧
    ∀ key, key ≠ "id" →
      spread_body request_body {[ "id" := JNum t ]} !! key
      = default ∅ request_body !! key.
Proof.
  assert (∀ w', fetches (downstream_call request_body w').2 =
         [{| url := addEvent_url; method := "POST";
             body := spread_body request_body
                       {[ "id" := JNum (clock w').1 ]} |}]) as Hone.
  { intros w'. rewrite downstream_call_eq.
    destruct (clock w') as [t w1]. simpl. by destruct (fetch _ w1). }
  split; [exact Hone|]. split.
  - unfold addEvent. destruct (circuitOpen b); [quiet_trace|].
    unfold mbind, Eff_bind, bind, retryWithBackoff.
    set (P := λ r, _).
    pose proof (retry_loop_calls P (downstream_call request_body)
                  MAX_RETRIES INITIAL_RETRY_DELAY 0 None w) as Hretry.
    destruct (retry_loop _ _ _ _ _ w) as [[r w1] tr1]. simpl in Hretry.
    assert (calls_satisfy P tr1) as Htr1.
    { apply Hretry. intros w'. unfold calls_satisfy. rewrite Hone.
      repeat constructor. by eexists. }
    destruct r as [d|err].
    + unfold Date_now. destruct (clock w1) as [now w2]. simpl.
      destruct (data_id d).
      * simpl. apply calls_satisfy_app; [done|]. quiet_trace.
      * pose proof (failure_branch_calls P (Some e) (on_success now b) w2).
        destruct (failure_branch _ _ w2) as [[? ?] ?].
        simpl in *. by apply calls_satisfy_app.
    + pose proof (failure_branch_calls P err b w1).
      destruct (failure_branch _ _ w1) as [[? ?] ?].
      simpl in *. by apply calls_satisfy_app.
  - intros t. rewrite spread_body_union. split; [done|]. split.
    + destruct (default ∅ request_body !! "id") as [v|] eqn:E; simpl.
      * by apply lookup_union_Some_l.
      * rewrite lookup_union_r by done. by rewrite lookup_singleton_eq.
    + intros key Hkey.
      destruct (default ∅ request_body !! key) as [v|] eqn:E.
      * by apply lookup_union_Some_l.
      * rewrite lookup_union_r by done. by rewrite lookup_singleton_ne.
Qed.

End HandlerFacts.

Lemma open_circuit_rejects_untouched_witness :
  let b := {| failureTimestamps := [0; 1000; 2000]; circuitOpen := true;
              nextProbe := Some (setTimeout first_probe BACKOFF_TIME) |} in
  let w := {| time := 3000; script := [created_200] |} in
  circuitOpen b = true ∧
  ∃ tr,
    addEvent (Some {[ "name" := JStr "hello"; "userId" := JStr "3" ]}) b w
    = ((CircuitOpen, b, []), w, tr) ∧
    invocations tr = [] ∧ fetches tr = [] ∧ sleeps tr = [].
Proof.
  split; [reflexivity|].
  apply (open_circuit_rejects_untouched (World := scripted)). reflexivity.
Defined.


(** ** The synchronous blocks *)

Lemma on_failure_window now b :
  failureTimestamps (on_failure now b).1.1
  = prune now (failureTimestamps b ++ [now]).
Proof. unfold on_failure. by destruct (_ && _), (nextProbe b). Qed.

Lemma on_failure_flag now b :
  circuitOpen (on_failure now b).1.1
  = circuitOpen b ||
    (FAILURE_THRESHOLD <=? length (prune now (failureTimestamps b ++ [now])))%nat.
Proof.
  unfold on_failure.
  destruct (_ <=? _)%nat, (circuitOpen b), (nextProbe b); done.
Qed.

Lemma on_failure_open now b :
  circuitOpen b = true →
  on_failure now b
  = ({| failureTimestamps := prune now (failureTimestamps b ++ [now]);
        circuitOpen := true; nextProbe := nextProbe b |}, [], []).
Proof.
  intros Hopen. unfold on_failure. rewrite Hopen, andb_false_r. done.
Qed.

Lemma on_failure_guard now b t :
  nextProbe b = Some t → (on_failure now b).1.2 = [].
Proof. intros Hp. unfold on_failure. rewrite Hp. by destruct (_ && _). Qed.

Lemma on_failure_armed now b :
  (on_failure now b).1.2 = [] ∨
  (circuitOpen b = false ∧ nextProbe b = None ∧
   circuitOpen (on_failure now b).1.1 = true ∧
   (on_failure now b).1.2 = [setTimeout first_probe BACKOFF_TIME]).
Proof.
  unfold on_failure.
  destruct (_ <=? _)%nat, (circuitOpen b), (nextProbe b); simpl; auto.
Qed.

Lemma on_failure_handle now b :
  circuitOpen (on_failure now b).1.1 = false →
  nextProbe (on_failure now b).1.1 = nextProbe b.
Proof.
  unfold on_failure.
  destruct (_ <=? _)%nat, (circuitOpen b), (nextProbe b); done.
Qed.

Lemma probe_settled_failed r b :
  recovers r = false → probe_settled r b = (false, b, (probe_settled r b).2).
Proof. by destruct r as [e|[] status json]. Qed.

Lemma probe_settled_recovered r b :
  recovers r = true →
  probe_settled r b
  = (true, initial, [ELog LInfo "[Circuit Breaker] Service recovered - CLOSED"]).
Proof. by destruct r as [e|[] status json]. Qed.

Lemma callback_resumed_failed cb b :
  callback_resumed cb false b
  = ({| failureTimestamps := failureTimestamps b; circuitOpen := circuitOpen b;
        nextProbe := Some (setTimeout retry BACKOFF_TIME) |},
     [setTimeout retry BACKOFF_TIME]).
Proof. by destruct cb. Qed.

Lemma callback_resumed_recovered cb b : callback_resumed cb true b = (b, []).
Proof. by destruct cb. Qed.

(** ** Runs of the event loop *)

Lemma run_app es1 es2 s :
  run (es1 ++ es2) s = run es1 s ≫= run es2.
Proof.
  revert s. induction es1 as [|e es1 IH]; intros s; simpl; [done|].
  destruct (step e s); [apply IH | done].
Qed.

Lemma run_snoc es e s s1 :
  run (es ++ [e]) s = Some s1 ↔ ∃ s', run es s = Some s' ∧ step e s' = Some s1.
Proof.
  rewrite run_app. destruct (run es s) as [s'|]; simpl.
  - destruct (step e s') as [s2|] eqn:E.
    + split; [intros [= <-]; by exists s'|].
      intros (? & [= <-] & Hs). by rewrite E in Hs.
    + split; [done|]. intros (? & [= <-] & Hs). by rewrite E in Hs.
  - split; [done|]. by intros (? & ? & ?).
Qed.

(** C7 (as amended): the success branch's upkeep is a total function of the
    state, so it never throws, and in every state, closed or open, it leaves
    the circuit flag and the probe handle as they are and replaces the window
    by its pruning: what it drops is a prefix of entries [e] with
    [now - e > FAILURE_WINDOW].  It is the identity exactly when the window
    does not start with such an entry. *)
Theorem success_upkeep_only_prunes (now : Z) (b : breaker) :
  circuitOpen (on_success now b) = circuitOpen b ∧
  nextProbe (on_success now b) = nextProbe b ∧
  failureTimestamps (on_success now b) = prune now (failureTimestamps b) ∧
  (∃ dropped,
     failureTimestamps b = dropped ++ failureTimestamps (on_success now b) ∧
     Forall (λ e, now - e > FAILURE_WINDOW) dropped) ∧
  (on_success now b = b ↔
   ∀ h, head (failureTimestamps b) = Some h → now - h ≤ FAILURE_WINDOW).
Proof.
  repeat (split; [done || apply prune_split|]).
  destruct b as [ts open handle]. unfold on_success. simpl. split.
  - intros [= Hts] h Hh. destruct ts as [|x ts]; [done|].
    injection Hh as ->.
    destruct (decide (stale now h)) as [Hs|Hs]; [|unfold stale in Hs; lia].
    rewrite prune_cons_stale in Hts by done.
    pose proof (prune_length now ts) as Hlen. rewrite Hts in Hlen.
    simpl in Hlen. lia.
  - intros Hhead. f_equal. destruct ts as [|x ts]; [done|].
    apply prune_cons_fresh, Hhead. done.
Qed.

(** C7 (as stated) fails: a request admitted before the circuit opened that
    succeeds while it is open runs the success branch in an open state, and
    there the window changes. *)
Lemma success_while_open_changes_window :
  let s := {| state := tripped; timers := [setTimeout retry BACKOFF_TIME];
              probes := []; inflight := 1 |} in
  run [RequestArrived; RequestArrived; RequestArrived; RequestArrived;
       RequestFailed 0; RequestFailed 1000; RequestFailed 2000;
       TimerFired 0; ProbeSettled 0 unavailable_503; ProbeResumed 0] boot
  = Some s ∧
  circuitOpen tripped = true ∧
  step (RequestSucceeded 40000) s
  = Some {| state := on_success 40000 tripped; timers := timers s;
            probes := []; inflight := 0 |} ∧
  failureTimestamps (on_success 40000 tripped) = [] ∧
  on_success 40000 tripped ≠ tripped.
Proof. repeat split; [reflexivity..|]. intros [=]. Qed.

(** ** Recovery probes *)

Lemma list_delete_insert {A} (l : list A) i x :
  delete i (<[i := x]> l) = delete i l.
Proof.
  revert i. induction l as [|y l IH]; intros [|i]; simpl; [done..|].
  f_equal. apply IH.
Qed.

Lemma settle_and_resume s i cb r :
  probes s !! i = Some (Fetching cb) →
  run [ProbeSettled i r; ProbeResumed i] s =
  let '(recovered, b1, _) := probe_settled r (state s) in
  let '(b2, armed) := callback_resumed cb recovered b1 in
  Some {| state := b2; timers := timers s ++ armed;
          probes := delete i (probes s); inflight := inflight s |}.
Proof.
  intros Hi. simpl. rewrite Hi.
  destruct (probe_settled r (state s)) as [[recovered b1] logged]. simpl.
  rewrite list_lookup_insert_eq by (by eapply lookup_lt_Some).
  destruct (callback_resumed cb recovered b1) as [b2 armed].
  by rewrite list_delete_insert.
Qed.

Section ProbeFacts.
Context {World : Type} `{Host World}.

(** C4: a probe whose response has [ok] set resolves to [true] and leaves the
    breaker in its initial state: circuit closed, window empty, probe handle
    null.  The timer callback that awaited it then changes nothing and arms
    nothing, in the sequential reading and in the event loop alike.  The
    next request is therefore handled exactly as by a server that never
    recorded a failure. *)
Theorem probe_success_resets_breaker (b : breaker) (w w1 : World)
    (status : Z) (json : data + error) :
  fetch probe_request w = (Response true status json, w1) →
  probeExternalService b w
  = ((true, initial), w1,
     [EFetch probe_request;
      ELog LInfo "[Circuit Breaker] Service recovered - CLOSED"]) ∧
  circuitOpen initial = false ∧ failureTimestamps initial = [] ∧
  nextProbe initial = None ∧
  (∀ cb, (timer_callback cb b w).1.1 = (initial, [])) ∧
  (∀ s i cb, state s = b → probes s !! i = Some (Fetching cb) →
     run [ProbeSettled i (Response true status json); ProbeResumed i] s
     = Some {| state := initial; timers := timers s;
               probes := delete i (probes s); inflight := inflight s |}) ∧
  (∀ request_body w',
     addEvent request_body (probeExternalService b w).1.1.2 w'
     = addEvent request_body initial w').
Proof.
  intros Hfetch.
  assert (probeExternalService b w
          = ((true, initial), w1,
             [EFetch probe_request;
              ELog LInfo "[Circuit Breaker] Service recovered - CLOSED"])) as Hp.
  { unfold probeExternalService, mbind, Eff_bind, bind, do_fetch.
    by rewrite Hfetch. }
  split; [exact Hp|]. repeat (split; [done|]). split; [|split].
  - intros cb. unfold timer_callback, mbind, Eff_bind, bind. rewrite Hp.
    simpl. by rewrite callback_resumed_recovered.
  - intros s i cb <- Hi. rewrite (settle_and_resume s i cb) by done. simpl.
    rewrite callback_resumed_recovered. by rewrite app_nil_r.
  - intros request_body w'. by rewrite Hp.
Qed.

End ProbeFacts.

Lemma probe_success_resets_breaker_witness :
  let w := {| time := 62000; script := [created_200] |} in
  fetch probe_request w
  = (created_200, {| time := 62100; script := [] |}) ∧
  (probeExternalService tripped w).1.1 = (true, initial).
Proof.
  split; [reflexivity|].
  destruct (probe_success_resets_breaker tripped
              {| time := 62000; script := [created_200] |}
              {| time := 62100; script := [] |} 200
              (inl (DObject {[ "success" := JBool true ]})))
    as [-> _]; reflexivity.
Defined.

Lemma probe_round_failed s t r :
  timers s = [t] → probes s = [] → recovers r = false →
  run (probe_round r) s
  = Some {| state := {| failureTimestamps := failureTimestamps (state s);
                        circuitOpen := circuitOpen (state s);
                        nextProbe := Some (setTimeout retry BACKOFF_TIME) |};
            timers := [setTimeout retry BACKOFF_TIME];
            probes := []; inflight := inflight s |}.
Proof.
  intros Ht Hp Hr. unfold probe_round.
  change (run (?e :: ?es) s) with
    (match step e s with Some s1 => run es s1 | None => None end).
  simpl step. rewrite Ht, Hp. simpl lookup. cbv iota.
  rewrite (settle_and_resume _ 0%nat (handler t)) by done. simpl.
  rewrite (probe_settled_failed r) by done.
  by rewrite callback_resumed_failed.
Qed.

(** C5: when the one armed timer fires and its probe fails (the response is
    not [ok], or the fetch rejects), the circuit flag and the window are
    what they were, in particular an open circuit stays open, and the
    callback arms exactly one timer, for [retry] after [BACKOFF_TIME]; the
    probe handle refers to it.  So it is after every one of any number of
    consecutive failed probes: the delay is [BACKOFF_TIME] each time. *)
Theorem probe_failure_rearms_fixed_backoff (s : server) (t : timer)
    (rs : list fetched) :
  timers s = [t] → probes s = [] →
  rs ≠ [] → Forall (λ r, recovers r = false) rs →
  ∃ s', run (rs ≫= probe_round) s = Some s' ∧
        circuitOpen (state s') = circuitOpen (state s) ∧
        failureTimestamps (state s') = failureTimestamps (state s) ∧
        nextProbe (state s') = Some (setTimeout retry BACKOFF_TIME) ∧
        timers s' = [{| handler := retry; delay := BACKOFF_TIME |}] ∧
        probes s' = [] ∧ inflight s' = inflight s.
Proof.
  intros Ht Hp Hne Hrs. revert s t Ht Hp Hne.
  induction Hrs as [|r rs Hr Hrs IH]; intros s t Ht Hp Hne; [done|].
  change ((r :: rs) ≫= probe_round) with (probe_round r ++ (rs ≫= probe_round)).
  rewrite run_app, (probe_round_failed s t r) by done. simpl mbind.
  destruct rs as [|r' rs'].
  - eexists. split; [reflexivity|]. done.
  - edestruct IH as (s' & Hrun & Hs'); [..|exists s'; split; [exact Hrun|]];
      [reflexivity | reflexivity | done | exact Hs'].
Qed.

Lemma probe_failure_rearms_fixed_backoff_witness :
  let s := {| state := {| failureTimestamps := [0; 1000; 2000];
                          circuitOpen := true;
                          nextProbe := Some (setTimeout first_probe BACKOFF_TIME) |};
              timers := [setTimeout first_probe BACKOFF_TIME];
              probes := []; inflight := 0 |} in
  let rs := [unavailable_503; Rejected (FetchError "fetch failed")] in
  timers s = [setTimeout first_probe BACKOFF_TIME] ∧ probes s = [] ∧
  rs ≠ [] ∧ Forall (λ r, recovers r = false) rs ∧
  ∃ s', run (rs ≫= probe_round) s = Some s' ∧
        circuitOpen (state s') = true ∧
        timers s' = [{| handler := retry; delay := 30000 |}].
Proof.
  intros s rs.
  assert (Forall (λ r, recovers r = false) rs) as Hrs by (by repeat constructor).
  repeat (split; [done|]).
  destruct (probe_failure_rearms_fixed_backoff s
              (setTimeout first_probe BACKOFF_TIME) rs eq_refl eq_refl
              ltac:(done) Hrs) as (s' & Hrun & Hopen & _ & _ & Htimers & _).
  exists s'. by repeat split.
Defined.

(** ** At most one probe pending *)

Lemma live_count_cons p ps : live_count (p :: ps) = (weight p + live_count ps)%nat.
Proof.
  unfold live_count, weight. destruct (live p) eqn:E.
  - by rewrite filter_cons_True.
  - rewrite filter_cons_False; [done|]. by rewrite E.
Qed.

Lemma live_count_app ps qs :
  live_count (ps ++ qs) = (live_count ps + live_count qs)%nat.
Proof. unfold live_count. by rewrite filter_app, length_app. Qed.

Lemma live_count_split ps i p :
  ps !! i = Some p →
  live_count ps = (live_count (take i ps) + weight p + live_count (drop (S i) ps))%nat.
Proof.
  intros Hi. rewrite <- (take_drop_middle ps i p Hi) at 1.
  rewrite live_count_app, live_count_cons. lia.
Qed.

Lemma live_count_insert ps i p q :
  ps !! i = Some p →
  (live_count (<[i := q]> ps) + weight p = live_count ps + weight q)%nat.
Proof.
  intros Hi. rewrite (live_count_split ps i p Hi).
  rewrite insert_take_drop by (by eapply lookup_lt_Some).
  rewrite live_count_app, live_count_cons. lia.
Qed.

Lemma live_count_delete ps i p :
  ps !! i = Some p → (live_count (delete i ps) + weight p = live_count ps)%nat.
Proof.
  intros Hi. rewrite (live_count_split ps i p Hi).
  rewrite delete_take_drop, live_count_app. lia.
Qed.

Lemma length_delete_lookup {A} (l : list A) i x :
  l !! i = Some x → S (length (delete i l)) = length l.
Proof.
  intros Hi. rewrite <- (take_drop_middle l i x Hi) at 2.
  rewrite delete_take_drop, !length_app. simpl. lia.
Qed.

Lemma pending_eq s : pending s = (length (timers s) + live_count (probes s))%nat.
Proof. done. Qed.

Lemma consistent_agrees s : consistent s ↔ agrees (state s) (pending s).
Proof. done. Qed.

Lemma on_success_agrees now b n : agrees b n → agrees (on_success now b) n.
Proof. done. Qed.

Lemma on_failure_agrees now b n :
  agrees b n →
  agrees (on_failure now b).1.1 (n + length (on_failure now b).1.2)%nat.
Proof.
  unfold agrees, on_failure.
  destruct (_ <=? _)%nat, (circuitOpen b), (nextProbe b);
    simpl; intros; destruct_and?; try discriminate; auto with lia.
Qed.

Lemma probe_settled_agrees r b n :
  agrees b (S n) →
  agrees (probe_settled r b).1.2
         (n + (if (probe_settled r b).1.1 then 0 else 1))%nat.
Proof.
  unfold agrees. destruct r as [e|[] status json]; simpl;
    destruct (circuitOpen b); intros; destruct_and?; try discriminate;
    auto with lia.
Qed.

Lemma callback_resumed_agrees cb (recovered : bool) b (n : nat) :
  agrees b (n + (if recovered then 0 else 1))%nat →
  agrees (callback_resumed cb recovered b).1
         (n + length (callback_resumed cb recovered b).2)%nat.
Proof.
  destruct recovered.
  - rewrite callback_resumed_recovered. simpl. done.
  - rewrite callback_resumed_failed. unfold agrees. simpl.
    destruct (circuitOpen b); intros; destruct_and?; auto with lia.
Qed.

Lemma agrees_eq b n m : n = m → agrees b n → agrees b m.
Proof. by intros ->. Qed.

(** Every synchronous block preserves consistency. *)
Lemma step_consistent e s s' :
  consistent s → step e s = Some s' → consistent s'.
Proof.
  rewrite !consistent_agrees, !pending_eq. intros Hc Hstep.
  destruct e as [|now|now now'|now|i|i r|i]; simpl in Hstep.
  - destruct (circuitOpen (state s)); by simplify_eq/=.
  - destruct (inflight s); simplify_eq/=. done.
  - destruct (inflight s); [done|].
    pose proof (on_failure_agrees now' _ _ (on_success_agrees now _ _ Hc)) as Hf.
    destruct (on_failure now' _) as [[b1 armed] logged]. simplify_eq/=.
    eapply agrees_eq; [|exact Hf]. rewrite length_app. lia.
  - destruct (inflight s); [done|].
    pose proof (on_failure_agrees now _ _ Hc) as Hf.
    destruct (on_failure now _) as [[b1 armed] logged]. simplify_eq/=.
    eapply agrees_eq; [|exact Hf]. rewrite length_app. lia.
  - destruct (timers s !! i) as [t|] eqn:Hi; simplify_eq/=.
    eapply agrees_eq; [|exact Hc].
    rewrite live_count_app, live_count_cons.
    apply length_delete_lookup in Hi. unfold weight, live_count at 3. simpl. lia.
  - destruct (probes s !! i) as [[cb|cb recovered]|] eqn:Hi; simplify_eq/=.
    pose proof (live_count_insert (probes s) i (Fetching cb)) as Hins.
    pose proof (live_count_split _ _ _ Hi) as Hsplit.
    pose proof (probe_settled_agrees r (state s)
                  (length (timers s) + live_count (probes s) - 1)) as Hp.
    destruct (probe_settled r (state s)) as [[recovered b1] logged].
    simplify_eq/=. specialize (Hins (Resuming cb recovered) Hi).
    unfold weight in Hins, Hsplit. simpl in Hins, Hsplit.
    eapply agrees_eq; [|apply Hp; eapply agrees_eq; [|exact Hc]; lia].
    destruct recovered; simpl in *; lia.
  - destruct (probes s !! i) as [[cb|cb recovered]|] eqn:Hi; simplify_eq/=.
    pose proof (live_count_delete (probes s) i _ Hi) as Hdel.
    pose proof (callback_resumed_agrees cb recovered (state s)
                  (length (timers s) + live_count (delete i (probes s)))) as Hr.
    destruct (callback_resumed cb recovered (state s)) as [b1 armed].
    simplify_eq/=. unfold weight in Hdel. simpl in Hdel.
    eapply agrees_eq; [|apply Hr; eapply agrees_eq; [|exact Hc]].
    + rewrite length_app. lia.
    + destruct recovered; simpl in *; lia.
Qed.

Lemma run_consistent es s s' :
  consistent s → run es s = Some s' → consistent s'.
Proof.
  revert s. induction es as [|e es IH]; intros s Hc; simpl.
  - by intros [= <-].
  - destruct (step e s) as [s1|] eqn:E; [|done].
    apply IH. by eapply step_consistent.
Qed.

Lemma boot_consistent : consistent boot.
Proof. done. Qed.

Lemma consistent_pending s : consistent s → (pending s ≤ 1)%nat.
Proof.
  unfold consistent, agrees.
  destruct (circuitOpen (state s)); intros; destruct_and?; lia.
Qed.

(** C3: in every server reachable from boot by any sequence of request
    outcomes, timer firings and probe outcomes, at most one probe is pending:
    armed timers and unfinished probe callbacks together number at most one,
    so at most one timer is armed.  The failure branch arms nothing when the
    probe handle is set, nor when a timer is armed already; and when an armed
    timer fires and its probe fails, the timer is gone and exactly one new
    timer is armed in its place. *)
Theorem at_most_one_probe_pending :
  (∀ es s, run es boot = Some s →
     (pending s ≤ 1)%nat ∧ (length (timers s) ≤ 1)%nat) ∧
  (∀ now b t, nextProbe b = Some t → (on_failure now b).1.2 = []) ∧
  (∀ es s now s', run es boot = Some s → timers s ≠ [] →
     step (RequestFailed now) s = Some s' → timers s' = timers s) ∧
  (∀ es s i t r, run es boot = Some s →
     timers s !! i = Some t → recovers r = false →
     ∃ s', run [TimerFired i; ProbeSettled (length (probes s)) r;
                ProbeResumed (length (probes s))] s = Some s' ∧
           timers s' = [setTimeout retry BACKOFF_TIME]).
Proof.
  split; [|split; [|split]].
  - intros es s Hrun.
    pose proof (consistent_pending s
                  (run_consistent es boot s boot_consistent Hrun)) as Hp.
    split; [done|]. rewrite pending_eq in Hp. lia.
  - intros now b t Ht. by eapply on_failure_guard.
  - intros es s now s' Hrun Hne Hstep.
    pose proof (run_consistent es boot s boot_consistent Hrun) as Hc.
    unfold consistent, agrees in Hc. rewrite pending_eq in Hc.
    destruct (circuitOpen (state s)) eqn:Hopen.
    + simpl in Hstep. destruct (inflight s); [done|].
      rewrite on_failure_open in Hstep by done. simplify_eq/=.
      by rewrite app_nil_r.
    + destruct Hc as [_ Hc]. destruct (timers s); [done|simpl in Hc; lia].
  - intros es s i t r Hrun Hi Hr.
    pose proof (run_consistent es boot s boot_consistent Hrun) as Hc.
    unfold consistent, agrees in Hc. rewrite pending_eq in Hc.
    pose proof (length_delete_lookup _ _ _ Hi) as Hlen.
    assert (length (delete i (timers s)) = 0%nat) as Hnil
      by (destruct (circuitOpen (state s)); destruct_and?; lia).
    apply nil_length_inv in Hnil.
    change (run (?e :: ?rest) s) with
      (match step e s with Some s1 => run rest s1 | None => None end).
    simpl step. rewrite Hi, Hnil.
    rewrite (settle_and_resume _ (length (probes s)) (handler t))
      by (simpl; apply list_lookup_middle; done).
    simpl. rewrite (probe_settled_failed r) by done.
    rewrite callback_resumed_failed. eexists. split; [reflexivity|done].
Qed.

(** ** Opening of the circuit *)

Lemma fresh_earlier now t e : now ≤ t → fresh t e → fresh now e.
Proof. unfold fresh. lia. Qed.

Lemma Forall_fresh_earlier now t l :
  now ≤ t → Forall (fresh t) l → Forall (fresh now) l.
Proof.
  intros Hle Hl. eapply Forall_impl; [exact Hl|].
  intros x. by apply fresh_earlier.
Qed.

Lemma fresh_self now : fresh now now.
Proof. unfold fresh, FAILURE_WINDOW. lia. Qed.

Lemma sublist_filter_all {A} (P : A → Prop) `{∀ x, Decision (P x)}
    (k l : list A) :
  Forall P k → k `sublist_of` l → k `sublist_of` filter P l.
Proof.
  intros Hk Hsub. induction Hsub as [|x k l Hsub IH|x k l Hsub IH].
  - done.
  - apply Forall_cons in Hk as [Hx Hk].
    rewrite filter_cons_True by done. by apply sublist_skip, IH.
  - destruct (decide (P x)).
    + rewrite filter_cons_True by done. by apply sublist_cons, IH.
    + rewrite filter_cons_False by done. by apply IH.
Qed.

Lemma Forall_filter_fresh t (l : list Z) : Forall (fresh t) (filter (fresh t) l).
Proof.
  apply Forall_forall. intros x Hx. by apply list_elem_of_filter in Hx as [? _].
Qed.

(** As long as no probe recovers, and up to a time [t], the window keeps
    every failure recorded so far that is fresh at [t]. *)
Lemma run_keeps_fresh t es s s' keep :
  Forall (λ e, resets e = false) es →
  Forall (λ e, Forall (λ x, x ≤ t) (stamps e)) es →
  run es s = Some s' →
  keep `sublist_of` failureTimestamps (state s) →
  Forall (fresh t) keep →
  keep ++ filter (fresh t) (failures es)
    `sublist_of` failureTimestamps (state s').
Proof.
  intros Hreq Hstamps. revert s keep.
  induction es as [|e es IH]; intros s keep Hrun Hsub Hkeep.
  { injection Hrun as <-. by rewrite app_nil_r. }
  apply Forall_cons in Hreq as [He Hreq].
  apply Forall_cons in Hstamps as [Hle Hstamps].
  simpl in Hrun. destruct (step e s) as [s1|] eqn:Hstep; [|done].
  change (failures (e :: es)) with (recorded e ++ failures es).
  rewrite filter_app, app_assoc.
  apply (IH Hreq Hstamps s1); [done|..]; clear IH Hrun.
  - destruct e as [|now|now now'|now|i|i r|i]; simpl in *.
    + rewrite app_nil_r. by destruct (circuitOpen (state s)); simplify_eq/=.
    + destruct (inflight s); simplify_eq/=. rewrite app_nil_r.
      apply Forall_inv in Hle.
      apply prune_keeps_fresh; [|done].
      by apply (Forall_fresh_earlier _ t); [exact Hle|].
    + destruct (inflight s); [done|].
      pose proof (on_failure_window now' (on_success now (state s))) as Hw.
      destruct (on_failure now' _) as [[b1 armed] logged]. simplify_eq/=.
      apply Forall_cons in Hle as [Hnow [Hnow' _]%Forall_cons].
      rewrite Hw. apply prune_keeps_fresh.
      * apply (Forall_fresh_earlier _ t); [exact Hnow'|].
        apply Forall_app. split; [done|apply Forall_filter_fresh].
      * apply sublist_app; [|apply sublist_filter].
        apply prune_keeps_fresh; [|done].
        by apply (Forall_fresh_earlier _ t); [exact Hnow|].
    + destruct (inflight s); [done|].
      pose proof (on_failure_window now (state s)) as Hw.
      destruct (on_failure now _) as [[b1 armed] logged]. simplify_eq/=.
      apply Forall_inv in Hle.
      rewrite Hw. apply prune_keeps_fresh.
      * apply (Forall_fresh_earlier _ t); [exact Hle|].
        apply Forall_app. split; [done|apply Forall_filter_fresh].
      * apply sublist_app; [done|apply sublist_filter].
    + rewrite app_nil_r. destruct (timers s !! i); by simplify_eq/=.
    + rewrite app_nil_r.
      destruct (probes s !! i) as [[cb|cb recovered]|]; try done.
      rewrite (probe_settled_failed r) in Hstep by done.
      injection Hstep as <-. done.
    + rewrite app_nil_r.
      destruct (probes s !! i) as [[cb|cb [|]]|]; try done.
      * rewrite callback_resumed_recovered in Hstep. by injection Hstep as <-.
      * rewrite callback_resumed_failed in Hstep. by injection Hstep as <-.
  - apply Forall_app. split; [done|]. apply Forall_filter_fresh.
Qed.

(** As long as no probe recovers, an open circuit stays open and admits no
    request. *)
Lemma run_stays_open es s s' :
  circuitOpen (state s) = true → Forall (λ e, resets e = false) es →
  run es s = Some s' →
  circuitOpen (state s') = true ∧ (inflight s' ≤ inflight s)%nat.
Proof.
  intros Hopen Hreq. revert s Hopen.
  induction Hreq as [|e es He Hreq IH]; intros s Hopen Hrun.
  { by injection Hrun as <-. }
  simpl in Hrun. destruct (step e s) as [s1|] eqn:Hstep; [|done].
  assert (circuitOpen (state s1) = true ∧ (inflight s1 ≤ inflight s)%nat)
    as (Ho & Hi).
  { destruct e as [|now|now now'|now|i|i r|i]; simpl in *.
    - rewrite Hopen in Hstep. injection Hstep as <-. auto.
    - destruct (inflight s); [done|]. injection Hstep as <-. simpl.
      auto with lia.
    - destruct (inflight s); [done|].
      rewrite on_failure_open in Hstep by done. injection Hstep as <-.
      simpl. auto with lia.
    - destruct (inflight s); [done|].
      rewrite on_failure_open in Hstep by done. injection Hstep as <-.
      simpl. auto with lia.
    - destruct (timers s !! i); [|done]. injection Hstep as <-. auto.
    - destruct (probes s !! i) as [[cb|cb recovered]|]; try done.
      rewrite (probe_settled_failed r) in Hstep by done.
      injection Hstep as <-. auto.
    - destruct (probes s !! i) as [[cb|cb [|]]|]; try done.
      + rewrite callback_resumed_recovered in Hstep.
        injection Hstep as <-. auto.
      + rewrite callback_resumed_failed in Hstep.
        injection Hstep as <-. auto. }
  destruct (IH s1 Ho Hrun) as (? & ?). split; [done|lia].
Qed.

Section Opening.
Context {World : Type} `{Host World}.

(** C1 (as amended): let the server handle any events from any state, none
    of them a probe settling as a recovery and none with a clock reading
    later than [t], and let a failure then be recorded at [t].  If the
    failures recorded by those events include [FAILURE_THRESHOLD - 1] or more
    within [FAILURE_WINDOW] of [t], so that with the one at [t] the threshold
    is reached inside one window, the circuit is open once the failure at [t]
    is recorded.  It then stays open until a probe recovers, so in particular
    until the next probe fires: no request is admitted, and a request handled
    in any such state gets the [CircuitOpen] rejection with no downstream
    call, no retry and no delay.  The first hypothesis is needed: a probe
    that recovers empties the window (lines 99-101), and failures recorded
    before it no longer count. *)
Theorem threshold_failures_open_circuit (s0 s1 : server) (pre : list event)
    (t : Z) (earlier : list Z) :
  Forall (λ e, resets e = false) pre →
  Forall (λ e, Forall (λ x, x ≤ t) (stamps e)) pre →
  earlier `sublist_of` failures pre →
  Forall (λ e, t - e ≤ FAILURE_WINDOW) earlier →
  (FAILURE_THRESHOLD ≤ length earlier + 1)%nat →
  run (pre ++ [RequestFailed t]) s0 = Some s1 →
  circuitOpen (state s1) = true ∧
  ∀ post s2, Forall (λ e, resets e = false) post → run post s1 = Some s2 →
    circuitOpen (state s2) = true ∧ (inflight s2 ≤ inflight s1)%nat ∧
    ∀ request_body (w : World), ∃ tr,
      addEvent request_body (state s2) w
      = ((CircuitOpen, state s2, []), w, tr) ∧
      invocations tr = [] ∧ fetches tr = [] ∧ sleeps tr = [].
Proof.
  intros Hreq Hstamps Hsub Hfresh Hlen Hrun.
  apply run_snoc in Hrun as (s' & Hpre & Hstep).
  assert (circuitOpen (state s1) = true) as Hopen.
  { pose proof (run_keeps_fresh t pre s0 s' [] Hreq Hstamps Hpre
                  (sublist_nil_l _) (Forall_nil_2 _)) as Hkept.
    simpl in Hkept, Hstep. destruct (inflight s'); [done|].
    pose proof (on_failure_flag t (state s')) as Hflag.
    destruct (on_failure t (state s')) as [[b1 armed] logged].
    injection Hstep as <-. cbn [fst snd] in Hflag. cbn [state].
    rewrite Hflag. apply orb_true_iff. right.
    apply Nat.leb_le.
    assert (earlier ++ [t] `sublist_of`
            prune t (failureTimestamps (state s') ++ [t])) as Hin.
    { apply prune_keeps_fresh.
      - apply Forall_app. split; [done|]. constructor; [apply fresh_self|done].
      - apply sublist_app; [|done]. etrans; [|exact Hkept].
        by apply sublist_filter_all. }
    apply sublist_length in Hin. rewrite length_app in Hin. simpl in Hin. lia. }
  split; [done|]. intros post s2 Hpost Hrun2.
  destruct (run_stays_open post s1 s2 Hopen Hpost Hrun2) as (Hopen2 & Hin2).
  repeat (split; [done|]). intros request_body w.
  eexists. split; [by apply addEvent_open|done].
Qed.

End Opening.

Lemma threshold_failures_open_circuit_witness :
  let pre := [RequestArrived; RequestArrived; RequestArrived; RequestArrived;
              RequestFailed 0; RequestSucceeded 500; RequestFailed 1000] in
  let s1 := {| state := {| failureTimestamps := [0; 1000; 2000];
                           circuitOpen := true;
                           nextProbe := Some (setTimeout first_probe BACKOFF_TIME) |};
               timers := [setTimeout first_probe BACKOFF_TIME];
               probes := []; inflight := 0 |} in
  let w := {| time := 3000; script := [] |} in
  Forall (λ e, resets e = false) pre ∧
  Forall (λ e, Forall (λ x, x ≤ 2000) (stamps e)) pre ∧
  [0; 1000] `sublist_of` failures pre ∧
  Forall (λ e, 2000 - e ≤ FAILURE_WINDOW) [0; 1000] ∧
  (FAILURE_THRESHOLD ≤ length [0; 1000] + 1)%nat ∧
  run (pre ++ [RequestFailed 2000]) boot = Some s1 ∧
  circuitOpen (state s1) = true ∧
  ∃ tr, addEvent None (state s1) w = ((CircuitOpen, state s1, []), w, tr) ∧
        fetches tr = [].
Proof.
  intros pre s1 w.
  assert (Forall (λ e, resets e = false) pre) as H1 by (by repeat constructor).
  assert (Forall (λ e, Forall (λ x, x ≤ 2000) (stamps e)) pre) as H2
    by (repeat constructor; done).
  assert ([0; 1000] `sublist_of` failures pre) as H3 by reflexivity.
  assert (Forall (λ e, 2000 - e ≤ FAILURE_WINDOW) [0; 1000]) as H4
    by (repeat constructor; done).
  assert (FAILURE_THRESHOLD ≤ length [0; 1000] + 1)%nat as H5 by (simpl; done).
  assert (run (pre ++ [RequestFailed 2000]) boot = Some s1) as H6 by reflexivity.
  repeat (split; [done|]).
  destruct (threshold_failures_open_circuit (World := scripted) boot s1 pre
              2000 [0; 1000] H1 H2 H3 H4 H5 H6) as [Hopen Hpost].
  destruct (Hpost [] s1 (Forall_nil_2 _) eq_refl) as (_ & _ & Hreject).
  destruct (Hreject None w) as (tr & Heq & _ & Hf & _).
  by exists tr.
Defined.

(** Without that hypothesis the statement fails.  Three failures open the
    circuit at 2000 and arm the probe; two requests admitted before that fail
    at 10000 and at 20000 and are recorded in the open circuit; the probe
    fires and recovers, which empties the window and closes the circuit; a
    request admitted after that fails at 39500.  The failures at 10000, 20000
    and 39500 lie within one [FAILURE_WINDOW], yet the window is [[39500]]
    and the circuit is closed once the last of them is recorded, and the next
    request is admitted. *)
Lemma failures_across_a_recovery_leave_circuit_closed :
  let pre := [RequestArrived; RequestArrived; RequestArrived; RequestArrived;
              RequestArrived;
              RequestFailed 0; RequestFailed 1000; RequestFailed 2000;
              RequestFailed 10000; RequestFailed 20000;
              TimerFired 0; ProbeSettled 0 created_200; ProbeResumed 0;
              RequestArrived] in
  let s1 := {| state := {| failureTimestamps := [39500]; circuitOpen := false;
                           nextProbe := None |};
               timers := []; probes := []; inflight := 0 |} in
  Forall (λ e, Forall (λ x, x ≤ 39500) (stamps e)) pre ∧
  [10000; 20000] `sublist_of` failures pre ∧
  Forall (λ e, 39500 - e ≤ FAILURE_WINDOW) [10000; 20000] ∧
  (FAILURE_THRESHOLD ≤ length [10000%Z; 20000%Z] + 1)%nat ∧
  run (pre ++ [RequestFailed 39500]) boot = Some s1 ∧
  circuitOpen (state s1) = false ∧
  inflight <$> step RequestArrived s1 = Some 1%nat ∧
  ¬ (∀ (s0 s1 : server) (pre : list event) (t : Z) (earlier : list Z),
       Forall (λ e, Forall (λ x, x ≤ t) (stamps e)) pre →
       earlier `sublist_of` failures pre →
       Forall (λ e, t - e ≤ FAILURE_WINDOW) earlier →
       (FAILURE_THRESHOLD ≤ length earlier + 1)%nat →
       run (pre ++ [RequestFailed t]) s0 = Some s1 →
       circuitOpen (state s1) = true).
Proof.
  intros pre s1.
  assert (Forall (λ e, Forall (λ x, x ≤ 39500) (stamps e)) pre) as H1
    by (repeat constructor; done).
  assert ([10000; 20000] `sublist_of` failures pre) as H2
    by (do 3 apply sublist_cons; reflexivity).
  assert (Forall (λ e, 39500 - e ≤ FAILURE_WINDOW) [10000; 20000]) as H3
    by (repeat constructor; done).
  assert (FAILURE_THRESHOLD ≤ length [10000%Z; 20000%Z] + 1)%nat as H4
    by (simpl; done).
  assert (run (pre ++ [RequestFailed 39500]) boot = Some s1) as H5
    by reflexivity.
  split_and!; [done..|].
  intros Hclaim. by specialize (Hclaim boot s1 pre 39500 [10000; 20000]
                                  H1 H2 H3 H4 H5).
Qed.

(** ** The probe as a downstream call *)

Lemma probe_payload_no_id : probe_payload !! "id" = None.
Proof. reflexivity. Qed.

Lemma probe_payload_userId : probe_payload !! "userId" = Some (JStr "probe").
Proof. reflexivity. Qed.

Lemma mock_accepting_stores (requestBody : obj) (m : Mock.store) :
  Mock.accepting m = true →
  Mock.events (Mock.addEvent requestBody m).2
  = <[Mock.property_key (requestBody !! "id") := requestBody]> (Mock.events m) ∧
  Mock.requestCount (Mock.addEvent requestBody m).2 = Mock.requestCount m + 1.
Proof.
  unfold Mock.accepting, Mock.addEvent. intros ->.
  by destruct (Mock.users m !! _).
Qed.

Lemma mock_success_accepting (requestBody : obj) (m : Mock.store) json :
  (Mock.addEvent requestBody m).1 = Mock.Json 200 json →
  Mock.accepting m = true.
Proof.
  unfold Mock.accepting, Mock.addEvent.
  destruct (_ || _); [done|]. intros [=].
Qed.

Section ProbeCall.
Context {World : Type} `{Host World}.

(** C9: a recovery probe, and so every timer callback, performs exactly one
    downstream call: a POST to [http://event.com/addEvent], the URL and
    method of the regular calls, with the fixed body
    [{name: '__probe__', userId: 'probe'}].  The repository's downstream
    resolver treats it as any other event: whenever it takes its accepting
    branch it stores the probe payload in its event store (under the
    property name of the payload's absent id) and counts the request, and it
    answers 200 only from that branch. *)
Theorem probe_is_a_real_addEvent_call (b : breaker) (cb : callback) (w : World) :
  fetches (probeExternalService b w).2 = [probe_request] ∧
  fetches (timer_callback cb b w).2 = [probe_request] ∧
  probe_request
  = {| url := "http://event.com/addEvent"; method := "POST";
       body := {[ "name" := JStr "__probe__"; "userId" := JStr "probe" ]} |} ∧
  (∀ request_body w',
     Forall (λ r, url r = url probe_request ∧ method r = method probe_request)
            (fetches (downstream_call request_body w').2)) ∧
  (∀ m, Mock.accepting m = true →
     Mock.events (Mock.addEvent (body probe_request) m).2 !! "undefined"
     = Some (body probe_request) ∧
     Mock.requestCount (Mock.addEvent (body probe_request) m).2
     = Mock.requestCount m + 1) ∧
  (∀ m json,
     (Mock.addEvent (body probe_request) m).1 = Mock.Json 200 json →
     Mock.events (Mock.addEvent (body probe_request) m).2 !! "undefined"
     = Some (body probe_request)).
Proof.
  assert (fetches (probeExternalService b w).2 = [probe_request]) as Hp.
  { unfold probeExternalService, mbind, Eff_bind, bind, do_fetch.
    destruct (fetch probe_request w) as [r w1].
    by destruct r as [e|[] status json]. }
  split; [exact Hp|]. split.
  { unfold timer_callback, mbind, Eff_bind, bind.
    destruct (probeExternalService b w) as [[[recovered b1] w1] tr].
    simpl in *. by rewrite app_nil_r. }
  split; [done|]. split.
  { intros request_body w'. rewrite downstream_call_eq.
    destruct (clock w') as [t w1]. simpl. destruct (fetch _ w1).
    by repeat constructor. }
  assert (∀ m, Mock.accepting m = true →
            Mock.events (Mock.addEvent (body probe_request) m).2 !! "undefined"
            = Some (body probe_request)) as Hstore.
  { intros m Hm. change (body probe_request) with probe_payload.
    destruct (mock_accepting_stores probe_payload m Hm) as [-> _].
    rewrite probe_payload_no_id. apply lookup_insert_eq. }
  split.
  - intros m Hm. split; [by apply Hstore|]. by apply mock_accepting_stores.
  - intros m json Hok. eapply Hstore, mock_success_accepting, Hok.
Qed.

End ProbeCall.

Lemma probe_is_a_real_addEvent_call_witness :
  Mock.accepting Mock.start = true ∧
  Mock.events (Mock.addEvent probe_payload Mock.start).2 !! "undefined"
  = Some probe_payload.
Proof.
  split; [reflexivity|].
  destruct (probe_is_a_real_addEvent_call (World := scripted) initial
              first_probe {| time := 0; script := [] |})
    as (_ & _ & _ & _ & Hstore & _).
  apply (Hstore Mock.start eq_refl).
Defined.

(** With the stores as the mock initialises them, the first probe is stored
    as an event and the resolver then throws: no user is named [probe]. *)
Remark mock_probe_at_start :
  (Mock.addEvent probe_payload Mock.start).1
  = Mock.Threw (TypeError "Cannot read properties of undefined (reading 'events')").
Proof. reflexivity. Qed.

Lemma at_most_one_probe_pending_witness :
  let s := {| state := {| failureTimestamps := [0; 1000; 2000];
                          circuitOpen := true;
                          nextProbe := Some (setTimeout first_probe BACKOFF_TIME) |};
              timers := [setTimeout first_probe BACKOFF_TIME];
              probes := []; inflight := 1 |} in
  let es := [RequestArrived; RequestArrived; RequestArrived; RequestArrived;
             RequestFailed 0; RequestFailed 1000; RequestFailed 2000] in
  run es boot = Some s ∧ (pending s ≤ 1)%nat ∧
  (∀ s', step (RequestFailed 2500) s = Some s' → timers s' = timers s) ∧
  ∃ s', run [TimerFired 0; ProbeSettled 0 unavailable_503; ProbeResumed 0] s
        = Some s' ∧ timers s' = [setTimeout retry BACKOFF_TIME].
Proof.
  intros s es.
  assert (run es boot = Some s) as Hrun by reflexivity.
  destruct at_most_one_probe_pending as (Hone & _ & Hguard & Hreplace).
  split; [exact Hrun|]. split; [apply (Hone es s Hrun)|]. split.
  - intros s'. by apply (Hguard es s 2500 s' Hrun).
  - apply (Hreplace es s 0%nat (setTimeout first_probe BACKOFF_TIME)
             unavailable_503 Hrun); reflexivity.
Defined.

(** ** The scenario of the specification

    Failures at 0, 1 and 2 s open the circuit at 2 s; a request at 3 s is
    rejected without a downstream call; the probe fails and the circuit stays
    open with one timer armed again; the next probe succeeds and the breaker
    is as initially; a request then goes through the retry loop. *)
Example scenario :
  let opened := {| failureTimestamps := [0; 1000; 2000]; circuitOpen := true;
                   nextProbe := Some (setTimeout first_probe BACKOFF_TIME) |} in
  run [RequestArrived; RequestArrived; RequestArrived;
       RequestFailed 0; RequestFailed 1000; RequestFailed 2000] boot
  = Some {| state := opened; timers := [setTimeout first_probe BACKOFF_TIME];
            probes := []; inflight := 0 |} ∧
  (addEvent None opened {| time := 3000; script := [created_200] |}).1.1
  = (CircuitOpen, opened, []) ∧
  (timer_callback first_probe opened
     {| time := 32000; script := [unavailable_503] |}).1.1
  = (tripped, [setTimeout retry BACKOFF_TIME]) ∧
  (timer_callback retry tripped
     {| time := 62000; script := [created_200] |}).1.1
  = (initial, []) ∧
  (addEvent None initial {| time := 63000; script := [created_200] |}).1.1
  = (Sent (DObject {[ "success" := JBool true ]}), initial, []).
Proof. repeat split; reflexivity. Qed.

(** * Further properties of the code *)

(** ** The retry loop in general *)

Section RetryInGeneral.
Context {World : Type} `{Host World} {A : Type}.
Implicit Types (fn : Eff World (A + error)) (w : World).

Lemma retry_loop_last_settlement fn maxRetries baseDelay attempt lastError w :
  (attempt ≤ maxRetries)%nat →
  ∃ s w' fx k before logs,
    settlement (retry_loop fn maxRetries baseDelay attempt lastError w).1.1
    = Some s ∧
    fn w' = (s, (retry_loop fn maxRetries baseDelay attempt lastError w).1.2, fx) ∧
    (retry_loop fn maxRetries baseDelay attempt lastError w).2
    = before ++ EInvoke k :: fx ++ logs ∧
    Forall is_log logs ∧ (k ≤ maxRetries)%nat.
Proof.
  funelim (retry_loop fn maxRetries baseDelay attempt lastError w);
    clear Heqcall; intros Hle; [lia|..].
  - eexists (inl result), w, fx, attempt, [], _. simpl.
    split; [done|]. split; [eassumption|]. split; [reflexivity|]. split; [|done].
    destruct (decide (0 < attempt)%nat); by repeat constructor.
  - eexists (inr error0), w, fx, attempt, [], _. simpl.
    split; [done|]. split; [eassumption|]. split; [reflexivity|]. split; [|done].
    by repeat constructor.
  - match goal with IH : (S attempt ≤ maxRetries)%nat → _ |- _ =>
      destruct IH as (s & w' & fx' & k & before & logs & Hs & Hfn & Htr & Hlogs & Hk);
        [lia|] end.
    exists s, w', fx', k. eexists (EInvoke attempt :: fx ++ _ :: _ :: before), logs.
    simpl. rewrite Htr.
    split; [done|]. split; [exact Hfn|]. split; [|done].
    by rewrite <- !app_assoc.
Qed.

Lemma retry_outcome_settles fn (maxRetries : nat) (baseDelay : Z) w :
  ∃ s w' fx,
    settlement (retryWithBackoff fn maxRetries baseDelay w).1.1 = Some s ∧
    fn w' = (s, (retryWithBackoff fn maxRetries baseDelay w).1.2, fx).
Proof.
  destruct (retry_loop_last_settlement fn maxRetries baseDelay 0 None w)
    as (s & w' & fx & _ & _ & _ & Hs & Hfn & _); [lia|].
  by exists s, w', fx.
Qed.

(** X1: for every retry bound [maxRetries] that is a natural number, every
    integer base delay and every operation that rejects, when it rejects,
    with an [Error] object (an [error] here), [retryWithBackoff] ends with
    the settlement of its last invocation of [fn]: it returns the value that
    invocation resolved to or throws the error it rejected with, never the
    [undefined] of line 87, and it hands back the world that invocation
    left: after the last attempt, which is one of the attempts
    [0 .. maxRetries], only log lines follow, no delay and no further call.
    (A bound that is negative or not a whole number, and an operation that
    rejects with [undefined] or [null], are outside this model of the loop
    and outside this statement.) *)
Theorem retry_outcome_is_last_settlement fn (maxRetries : nat) (baseDelay : Z) w :
  ∃ s w' fx k before logs,
    settlement (retryWithBackoff fn maxRetries baseDelay w).1.1 = Some s ∧
    fn w' = (s, (retryWithBackoff fn maxRetries baseDelay w).1.2, fx) ∧
    (retryWithBackoff fn maxRetries baseDelay w).2
    = before ++ EInvoke k :: fx ++ logs ∧
    Forall is_log logs ∧ (k ≤ maxRetries)%nat.
Proof. apply retry_loop_last_settlement. lia. Qed.

Lemma invocations_app tr1 tr2 :
  invocations (tr1 ++ tr2) = invocations tr1 ++ invocations tr2.
Proof. apply omap_app. Qed.

Lemma sleeps_app tr1 tr2 : sleeps (tr1 ++ tr2) = sleeps tr1 ++ sleeps tr2.
Proof. apply omap_app. Qed.

Lemma fetches_app tr1 tr2 : fetches (tr1 ++ tr2) = fetches tr1 ++ fetches tr2.
Proof. apply omap_app. Qed.

Lemma retry_loop_schedule fn maxRetries baseDelay attempt lastError w :
  (∀ w', invocations (fn w').2 = [] ∧ sleeps (fn w').2 = []) →
  (attempt ≤ maxRetries)%nat →
  ∃ k : nat,
    (1 ≤ k)%nat ∧ (attempt + k ≤ S maxRetries)%nat ∧
    invocations (retry_loop fn maxRetries baseDelay attempt lastError w).2
    = seq attempt k ∧
    sleeps (retry_loop fn maxRetries baseDelay attempt lastError w).2
    = backoff baseDelay <$> seq attempt (k - 1) ∧
    (∀ e, (retry_loop fn maxRetries baseDelay attempt lastError w).1.1
          = Thrown e → (attempt + k = S maxRetries)%nat).
Proof.
  intros Hfn.
  funelim (retry_loop fn maxRetries baseDelay attempt lastError w);
    clear Heqcall; intros Hle; [lia|..];
    match goal with Hq : fn ?w = _ |- _ =>
      destruct (Hfn w) as [Hi Hs]; rewrite Hq in Hi, Hs; simpl in Hi, Hs end.
  - exists 1%nat. simpl. rewrite invocations_app, sleeps_app, Hi, Hs.
    split_and!; [lia..| | |done];
      by destruct (decide (0 < attempt)%nat).
  - exists 1%nat. simpl. rewrite invocations_app, sleeps_app, Hi, Hs.
    split_and!; [lia..|done|done|]. intros; lia.
  - match goal with IH : _ → (S attempt ≤ maxRetries)%nat → _ |- _ =>
      destruct (IH Hfn) as (k & Hk1 & Hk2 & Hinv & Hsl & Hthrown); [lia|] end.
    exists (S k). simpl. rewrite invocations_app, sleeps_app, Hi, Hs. simpl.
    rewrite Hinv, Hsl. replace (k - 0)%nat with (S (k - 1)) by lia.
    split_and!; [lia..|done|done|].
    intros e He. specialize (Hthrown e He). lia.
Qed.

Lemma backoff_in_range (maxRetries i : nat) (baseDelay : Z) :
  1 ≤ baseDelay → baseDelay * 2 ^ Z.of_nat maxRetries ≤ TIMEOUT_MAX →
  (i ≤ maxRetries)%nat →
  1 ≤ baseDelay * 2 ^ Z.of_nat i ≤ TIMEOUT_MAX.
Proof.
  intros Hbase Hmax Hi.
  assert (0 < 2 ^ Z.of_nat i) by (apply Z.pow_pos_nonneg; lia).
  assert (2 ^ Z.of_nat i ≤ 2 ^ Z.of_nat maxRetries)
    by (apply Z.pow_le_mono_r; lia).
  nia.
Qed.

(** X2: for every retry bound [maxRetries] that is a natural number and every
    integer base delay [baseDelay >= 1] with
    [baseDelay * 2^maxRetries <= TIMEOUT_MAX], if the operation itself
    neither sleeps nor re-enters the loop, [retryWithBackoff] invokes it [k]
    times with [1 <= k <= maxRetries + 1], as attempts [0 .. k-1], and
    suspends exactly [k - 1] times, after attempt [i] on a timer set to
    [baseDelay * 2^i] ms, and never after the last attempt; each of these
    delays lies between 1 and [TIMEOUT_MAX], so the timer waits that long;
    it throws only after [maxRetries + 1] invocations.  (A bound that is
    negative or not a whole number is outside this model of the loop and
    outside this statement.) *)
Theorem retry_schedule_is_exponential fn (maxRetries : nat) (baseDelay : Z) w :
  (∀ w', invocations (fn w').2 = [] ∧ sleeps (fn w').2 = []) →
  1 ≤ baseDelay → baseDelay * 2 ^ Z.of_nat maxRetries ≤ TIMEOUT_MAX →
  ∃ k : nat,
    (1 ≤ k ≤ S maxRetries)%nat ∧
    invocations (retryWithBackoff fn maxRetries baseDelay w).2 = seq 0 k ∧
    sleeps (retryWithBackoff fn maxRetries baseDelay w).2
    = (λ i, baseDelay * 2 ^ Z.of_nat i) <$> seq 0 (k - 1) ∧
    Forall (λ delay, 1 ≤ delay ≤ TIMEOUT_MAX)
      (sleeps (retryWithBackoff fn maxRetries baseDelay w).2) ∧
    (∀ e, (retryWithBackoff fn maxRetries baseDelay w).1.1 = Thrown e →
          k = S maxRetries).
Proof.
  intros Hfn Hbase Hmax.
  destruct (retry_loop_schedule fn maxRetries baseDelay 0 None w Hfn)
    as (k & ? & ? & ? & Hsl & Hthrown); [lia|].
  exists k. split_and!; [lia..|done|done| |].
  - unfold retryWithBackoff. rewrite Hsl.
    apply Forall_fmap, Forall_forall. intros i Hi.
    apply elem_of_seq in Hi. apply (backoff_in_range maxRetries); [done..|lia].
  - intros e He. specialize (Hthrown e He). lia.
Qed.

End RetryInGeneral.

Lemma retry_schedule_is_exponential_witness :
  (∀ w', invocations (failing_operation w').2 = [] ∧
         sleeps (failing_operation w').2 = []) ∧
  1 ≤ 200 ∧ 200 * 2 ^ Z.of_nat 5 ≤ TIMEOUT_MAX ∧
  sleeps (retryWithBackoff failing_operation 5 200
            {| time := 0; script := [] |}).2
  = [200; 400; 800; 1600; 3200].
Proof.
  assert (∀ w', invocations (failing_operation w').2 = [] ∧
                sleeps (failing_operation w').2 = []) as Hfn by done.
  assert (1 ≤ 200) as Hbase by done.
  assert (200 * 2 ^ Z.of_nat 5 ≤ TIMEOUT_MAX) as Hmax by done.
  split; [exact Hfn|]. split; [exact Hbase|]. split; [exact Hmax|].
  destruct (retry_schedule_is_exponential failing_operation 5 200
              {| time := 0; script := [] |} Hfn Hbase Hmax)
    as (k & Hk & _ & -> & _ & Hthrown).
  rewrite (Hthrown (Some (ServiceError 6200))); reflexivity.
Defined.

(** ** The route handler in general *)

Section HandlerInGeneral.
Context {World : Type} `{Host World}.
Implicit Types (w : World) (b : breaker) (request_body : option obj).

Lemma downstream_call_quiet request_body w :
  invocations (downstream_call request_body w).2 = [] ∧
  sleeps (downstream_call request_body w).2 = [] ∧
  length (fetches (downstream_call request_body w).2) = 1%nat.
Proof.
  rewrite downstream_call_eq. destruct (clock w) as [t w1]. simpl.
  by destruct (fetch _ w1).
Qed.

Lemma retry_loop_one_fetch_each {A} (fn : Eff World (A + error))
    maxRetries baseDelay attempt lastError w :
  (∀ w', invocations (fn w').2 = [] ∧ length (fetches (fn w').2) = 1%nat) →
  length (fetches (retry_loop fn maxRetries baseDelay attempt lastError w).2)
  = length (invocations (retry_loop fn maxRetries baseDelay attempt lastError w).2).
Proof.
  intros Hfn.
  funelim (retry_loop fn maxRetries baseDelay attempt lastError w);
    clear Heqcall; [done|..];
    match goal with Hq : fn ?w = _ |- _ =>
      destruct (Hfn w) as [Hi Hf]; rewrite Hq in Hi, Hf; simpl in Hi, Hf end;
    simpl; rewrite fetches_app, invocations_app, !length_app, Hi, Hf.
  - by destruct (decide (0 < attempt)%nat).
  - done.
  - simpl. f_equal. auto.
Qed.

Lemma failure_branch_shape err b w :
  ∃ now w1 logs,
    clock w = (now, w1) ∧
    failure_branch err b w
    = ((match err with
        | Some _ => RetriesExhausted
        | None => ServerError
                    (TypeError "Cannot read properties of undefined (reading 'message')")
        end, (on_failure now b).1.1, (on_failure now b).1.2), w1, logs) ∧
    Forall is_log logs.
Proof.
  unfold failure_branch, mbind, Eff_bind, bind, Date_now, emit_all, log, emit,
    mret, Eff_ret, ret.
  destruct (clock w) as [now w1]. exists now, w1.
  assert (Forall is_log (on_failure now b).2) as Hl.
  { unfold on_failure. destruct (_ && _), (nextProbe b); by repeat constructor. }
  destruct (on_failure now b) as [[b1 armed] logged]. simpl in *.
  destruct err; simpl; eexists; (split; [done|]); (split; [reflexivity|]);
    rewrite ?app_nil_r;
    first [done | apply Forall_app; split; [done|by repeat constructor]].
Qed.

Lemma logs_quiet logs :
  Forall is_log logs → fetches logs = [] ∧ sleeps logs = [] ∧ invocations logs = [].
Proof.
  induction 1 as [|e logs He _ (? & ? & ?)]; [done|]. by destruct e.
Qed.

(** What a request handled with the circuit closed comes to: it makes [k]
    downstream calls, sleeps between them, and ends in one of three ways. *)
Lemma addEvent_closed_cases request_body b w :
  circuitOpen b = false →
  ∃ k : nat,
    (1 ≤ k ≤ S MAX_RETRIES)%nat ∧
    length (fetches (addEvent request_body b w).2) = k ∧
    sleeps (addEvent request_body b w).2
    = backoff INITIAL_RETRY_DELAY <$> seq 0 (k - 1) ∧
    length (invocations (retryWithBackoff (downstream_call request_body)
                           MAX_RETRIES INITIAL_RETRY_DELAY w).2) = k ∧
    ((∃ d now, (addEvent request_body b w).1.1
               = (Sent d, on_success now b, []) ∧ d ≠ DNull ∧
               (retryWithBackoff (downstream_call request_body)
                  MAX_RETRIES INITIAL_RETRY_DELAY w).1.1 = Returned d) ∨
     (∃ now e, (addEvent request_body b w).1.1
               = (RetriesExhausted, (on_failure now b).1.1, (on_failure now b).1.2) ∧
               k = S MAX_RETRIES ∧
               (retryWithBackoff (downstream_call request_body)
                  MAX_RETRIES INITIAL_RETRY_DELAY w).1.1 = Thrown (Some e)) ∨
     (∃ now now', (addEvent request_body b w).1.1
                  = (RetriesExhausted,
                     (on_failure now' (on_success now b)).1.1,
                     (on_failure now' (on_success now b)).1.2) ∧
                  (retryWithBackoff (downstream_call request_body)
                     MAX_RETRIES INITIAL_RETRY_DELAY w).1.1 = Returned DNull)).
Proof.
  intros Hclosed. unfold addEvent. rewrite Hclosed.
  unfold mbind, Eff_bind, bind.
  set (fn := downstream_call request_body).
  assert (∀ w', invocations (fn w').2 = [] ∧ sleeps (fn w').2 = []) as Hq
    by (intros w'; by destruct (downstream_call_quiet request_body w') as (? & ? & _)).
  assert (∀ w', invocations (fn w').2 = [] ∧ length (fetches (fn w').2) = 1%nat)
    as Hf
    by (intros w'; by destruct (downstream_call_quiet request_body w') as (? & _ & ?)).
  destruct (retry_loop_schedule fn MAX_RETRIES INITIAL_RETRY_DELAY 0 None w Hq)
    as (k & Hk1 & Hk2 & Hinv & Hsl & Hthrown); [lia|].
  pose proof (retry_loop_one_fetch_each fn MAX_RETRIES INITIAL_RETRY_DELAY 0
                None w Hf) as Hcount.
  assert (length (invocations
                    (retry_loop fn MAX_RETRIES INITIAL_RETRY_DELAY 0 None w).2) = k)
    as Hik by (by rewrite Hinv, length_seq).
  rewrite Hinv, length_seq in Hcount.
  destruct (retry_loop_last_settlement fn MAX_RETRIES INITIAL_RETRY_DELAY 0
              None w) as (s & _ & _ & _ & _ & _ & Hsettle & _); [lia|].
  unfold retryWithBackoff.
  destruct (retry_loop fn MAX_RETRIES INITIAL_RETRY_DELAY 0 None w)
    as [[o w1] tr1]. simpl in *.
  exists k. split; [lia|].
  destruct o as [d|[e|]]; [| |done].
  - unfold Date_now. destruct (clock w1) as [now w2] eqn:Hclock. simpl.
    destruct d as [|o|v]; simpl.
    + destruct (failure_branch_shape
                  (Some (TypeError "Cannot read properties of null (reading 'id')"))
                  (on_success now b) w2)
        as (now' & w3 & logs & _ & -> & Hlogs).
      destruct (logs_quiet logs Hlogs) as (Hlf & Hls & _). simpl.
      rewrite fetches_app, sleeps_app, Hlf, Hls, !app_nil_r.
      split_and!; [done..|]. right. right. by exists now, now'.
    + rewrite fetches_app, sleeps_app, !app_nil_r.
      split_and!; [done..|]. left. by exists (DObject o), now.
    + rewrite fetches_app, sleeps_app, !app_nil_r.
      split_and!; [done..|]. left. by exists (DScalar v), now.
  - destruct (failure_branch_shape (Some e) b w1)
      as (now & w2 & logs & _ & -> & Hlogs).
    destruct (logs_quiet logs Hlogs) as (Hlf & Hls & _). simpl.
    rewrite fetches_app, sleeps_app, Hlf, Hls, !app_nil_r.
    split_and!; [done..|]. right. left. exists now, e.
    split; [done|]. split; [|done]. specialize (Hthrown _ eq_refl). lia.
Qed.

(** X3: whatever the host answers, one request makes at most
    [MAX_RETRIES + 1 = 4] downstream calls and makes none exactly when it is
    answered [CircuitOpen], which happens exactly when the circuit is open.
    Between its calls it sleeps 1000, 2000, 4000 ms in that order, one delay
    fewer than it makes calls.  Its reply is a success body, [CircuitOpen] or
    [RetriesExhausted], never an unhandled server error, and it arms at most
    one timer. *)
Theorem handler_replies_and_call_bounds request_body b w :
  ((∃ d, (addEvent request_body b w).1.1.1.1 = Sent d ∧ d ≠ DNull) ∨
   (addEvent request_body b w).1.1.1.1 = CircuitOpen ∨
   (addEvent request_body b w).1.1.1.1 = RetriesExhausted) ∧
  ((addEvent request_body b w).1.1.1.1 = CircuitOpen ↔ circuitOpen b = true) ∧
  (fetches (addEvent request_body b w).2 = [] ↔ circuitOpen b = true) ∧
  (length (fetches (addEvent request_body b w).2) ≤ 4)%nat ∧
  (∃ k : nat, length (fetches (addEvent request_body b w).2) = k ∧
     sleeps (addEvent request_body b w).2 = take (k - 1) [1000; 2000; 4000]) ∧
  (length (addEvent request_body b w).1.1.2 ≤ 1)%nat.
Proof.
  destruct (circuitOpen b) eqn:Hopen.
  - rewrite addEvent_open by done. simpl.
    split_and!; [auto|done|done|lia|by exists 0%nat|lia].
  - destruct (addEvent_closed_cases request_body b w Hopen)
      as (k & Hk & Hf & Hs & _ & Hcases).
    assert (length (addEvent request_body b w).1.1.2 ≤ 1)%nat as Harmed.
    { destruct Hcases as [(d & now & -> & _)|[(now & e & -> & _)|(now & now' & -> & _)]];
        simpl; [lia|..].
      - destruct (on_failure_armed now b) as [->|(_ & _ & _ & ->)]; simpl; lia.
      - destruct (on_failure_armed now' (on_success now b))
          as [->|(_ & _ & _ & ->)]; simpl; lia. }
    unfold MAX_RETRIES in Hk.
    split_and!.
    + destruct Hcases
        as [(d & now & -> & ? & _)|[(now & e & -> & _)|(now & now' & -> & _)]];
        simpl; eauto.
    + split; [|done].
      by destruct Hcases
        as [(d & now & -> & ? & _)|[(now & e & -> & _)|(now & now' & -> & _)]].
    + split; [|done]. intros Hnil. rewrite Hnil in Hf. simpl in Hf. lia.
    + lia.
    + exists k. split; [done|]. rewrite Hs.
      destruct k as [|[|[|[|[|k]]]]]; try lia; reflexivity.
    + done.
Qed.

(** X4: with the circuit closed, the handler changes the breaker exactly as
    the arrival of a request followed by one completion event of the event
    loop: a success event when it replies a body, a failure event (possibly
    after the success branch ran on a [null] body) when it replies
    [RetriesExhausted]; the timers it arms are the ones that event arms.  A
    reply with a body therefore records no failure, and an exhausted request
    records exactly one, however many attempts it made. *)
Theorem handler_is_one_loop_event request_body b w
    (ts : list timer) (ps : list probe_task) (n : nat) :
  circuitOpen b = false →
  ∃ e,
    run [RequestArrived; e]
      {| state := b; timers := ts; probes := ps; inflight := n |}
    = Some {| state := (addEvent request_body b w).1.1.1.2;
              timers := ts ++ (addEvent request_body b w).1.1.2;
              probes := ps; inflight := n |} ∧
    match e with
    | RequestSucceeded _ => ∃ d, (addEvent request_body b w).1.1.1.1 = Sent d
    | RequestFailed _ | RequestSucceededNull _ _ =>
        (addEvent request_body b w).1.1.1.1 = RetriesExhausted
    | _ => False
    end.
Proof.
  intros Hclosed.
  destruct (addEvent_closed_cases request_body b w Hclosed)
    as (k & _ & _ & _ & _ & Hcases).
  destruct Hcases
    as [(d & now & -> & ? & _)|[(now & e & -> & _)|(now & now' & -> & _)]].
  - exists (RequestSucceeded now). simpl. rewrite Hclosed. simpl.
    rewrite app_nil_r. eauto.
  - exists (RequestFailed now). simpl. rewrite Hclosed. simpl.
    by destruct (on_failure now b) as [[b1 armed] logged].
  - exists (RequestSucceededNull now now'). simpl. rewrite Hclosed. simpl.
    by destruct (on_failure now' (on_success now b)) as [[b1 armed] logged].
Qed.

End HandlerInGeneral.

Lemma handler_is_one_loop_event_witness :
  let w := {| time := 5000; script := [unavailable_503; created_200] |} in
  circuitOpen initial = false ∧
  (addEvent None initial w).1.1.1.1
  = Sent (DObject {[ "success" := JBool true ]}) ∧
  ∃ e, run [RequestArrived; e] boot
       = Some {| state := (addEvent None initial w).1.1.1.2;
                 timers := [] ++ (addEvent None initial w).1.1.2;
                 probes := []; inflight := 0 |}.
Proof.
  intros w. split; [reflexivity|]. split; [reflexivity|].
  destruct (handler_is_one_loop_event (World := scripted) None initial w
              [] [] 0 eq_refl) as (e & Hrun & He).
  by exists e.
Defined.

(** ** The event loop in general *)

Lemma failures_snoc es e : failures (es ++ [e]) = failures es ++ recorded e.
Proof. unfold failures. rewrite bind_app. simpl. by rewrite app_nil_r. Qed.

Lemma prune_sublist now l : prune now l `sublist_of` l.
Proof.
  destruct (prune_split now l) as (d & Hl & _). rewrite Hl at 2.
  by apply sublist_inserts_l.
Qed.

(** A failure just pushed survives the pruning that follows it. *)
Lemma prune_pushed now l : ∃ q, prune now (l ++ [now]) = q ++ [now].
Proof.
  induction l as [|h l (q & IH)].
  - exists []. apply prune_cons_fresh, fresh_self.
  - change ((h :: l) ++ [now]) with (h :: (l ++ [now])).
    destruct (decide (stale now h)) as [Hs|Hs].
    + exists q. by rewrite prune_cons_stale.
    + exists (h :: l). apply prune_cons_fresh.
      unfold stale, fresh in *. lia.
Qed.

Lemma burst_sublist l k : l `sublist_of` k → burst l → burst k.
Proof.
  intros Hsub (a & b & c & Habc & Hw). exists a, b, c.
  split; [by etrans|done].
Qed.

Lemma burst_of_pruned now l :
  (FAILURE_THRESHOLD ≤ length (prune now (l ++ [now])))%nat →
  burst (prune now (l ++ [now])).
Proof.
  intros Hlen. destruct (prune_pushed now l) as (q & Hq).
  pose proof (prune_head_fresh now (l ++ [now])) as Hhead.
  rewrite Hq in Hlen, Hhead |- *. rewrite length_app in Hlen.
  unfold FAILURE_THRESHOLD in Hlen. simpl in Hlen.
  destruct q as [|a [|b q]]; simpl in Hlen; [lia..|].
  exists a, b, now. split.
  - simpl. do 2 apply sublist_skip. apply sublist_inserts_l. done.
  - by apply (Hhead a (b :: q ++ [now])).
Qed.

Lemma on_failure_trips now b :
  circuitOpen b = false → circuitOpen (on_failure now b).1.1 = true →
  burst (failureTimestamps (on_failure now b).1.1).
Proof.
  rewrite on_failure_flag, on_failure_window. intros -> Hflag. simpl in Hflag.
  apply burst_of_pruned. by apply Nat.leb_le.
Qed.

Lemma step_window_sublist e s s' l :
  step e s = Some s' →
  failureTimestamps (state s) `sublist_of` l →
  failureTimestamps (state s') `sublist_of` l ++ recorded e.
Proof.
  intros Hstep Hsub.
  destruct e as [|now|now now'|now|i|i r|i]; simpl in *; rewrite ?app_nil_r.
  - destruct (circuitOpen (state s)); by injection Hstep as <-.
  - destruct (inflight s); [done|]. injection Hstep as <-. simpl.
    etrans; [apply prune_sublist|done].
  - destruct (inflight s); [done|].
    pose proof (on_failure_window now' (on_success now (state s))) as Hw.
    destruct (on_failure now' _) as [[b1 armed] logged].
    injection Hstep as <-. simpl in *. rewrite Hw.
    etrans; [apply prune_sublist|]. apply sublist_app; [|done].
    etrans; [apply prune_sublist|done].
  - destruct (inflight s); [done|].
    pose proof (on_failure_window now (state s)) as Hw.
    destruct (on_failure now _) as [[b1 armed] logged].
    injection Hstep as <-. simpl in *. rewrite Hw.
    etrans; [apply prune_sublist|]. by apply sublist_app.
  - destruct (timers s !! i); [|done]. by injection Hstep as <-.
  - destruct (probes s !! i) as [[cb|cb recovered]|]; try done.
    destruct r as [e|[] status json]; injection Hstep as <-; simpl;
      done || apply sublist_nil_l.
  - destruct (probes s !! i) as [[cb|cb [|]]|]; try done.
    + rewrite callback_resumed_recovered in Hstep. by injection Hstep as <-.
    + rewrite callback_resumed_failed in Hstep. by injection Hstep as <-.
Qed.

Lemma step_trips e s s' :
  step e s = Some s' →
  circuitOpen (state s) = false → circuitOpen (state s') = true →
  burst (failureTimestamps (state s')).
Proof.
  intros Hstep Hclosed Hopen.
  destruct e as [|now|now now'|now|i|i r|i]; simpl in *.
  - rewrite Hclosed in Hstep. injection Hstep as <-. simpl in *. congruence.
  - destruct (inflight s); [done|]. injection Hstep as <-. simpl in *.
    congruence.
  - destruct (inflight s); [done|].
    pose proof (on_failure_trips now' (on_success now (state s)) Hclosed) as Ht.
    destruct (on_failure now' _) as [[b1 armed] logged].
    injection Hstep as <-. simpl in *. auto.
  - destruct (inflight s); [done|].
    pose proof (on_failure_trips now (state s) Hclosed) as Ht.
    destruct (on_failure now _) as [[b1 armed] logged].
    injection Hstep as <-. simpl in *. auto.
  - destruct (timers s !! i); [|done]. injection Hstep as <-. simpl in *.
    congruence.
  - destruct (probes s !! i) as [[cb|cb recovered]|]; try done.
    destruct r as [e|[] status json]; injection Hstep as <-; simpl in *;
      congruence.
  - destruct (probes s !! i) as [[cb|cb [|]]|]; try done.
    + rewrite callback_resumed_recovered in Hstep. injection Hstep as <-.
      simpl in *. congruence.
    + rewrite callback_resumed_failed in Hstep. injection Hstep as <-.
      simpl in *. congruence.
Qed.

Lemma run_window_recorded es s :
  run es boot = Some s →
  failureTimestamps (state s) `sublist_of` failures es ∧
  (circuitOpen (state s) = true → burst (failures es)).
Proof.
  revert s. induction es as [|e es IH] using rev_ind; intros s' Hrun.
  { injection Hrun as <-. by split. }
  apply run_snoc in Hrun as (s & Hrun & Hstep).
  destruct (IH s Hrun) as [Hsub Hburst]. rewrite failures_snoc.
  pose proof (step_window_sublist e s s' _ Hstep Hsub) as Hsub'.
  split; [done|]. intros Hopen.
  destruct (circuitOpen (state s)) eqn:Hs.
  - eapply burst_sublist; [|by apply Hburst]. by apply sublist_inserts_r.
  - eapply burst_sublist; [exact Hsub'|]. by eapply step_trips.
Qed.

Lemma failures_sublist_stamps es : failures es `sublist_of` all_stamps es.
Proof.
  unfold failures, all_stamps. induction es as [|e es IH]; [done|].
  simpl. apply sublist_app; [|done].
  destruct e; simpl; first [done | apply sublist_nil_l | by apply sublist_cons].
Qed.

Lemma sorted_sublist (k l : list Z) :
  k `sublist_of` l → StronglySorted Z.le l → StronglySorted Z.le k.
Proof.
  induction 1 as [|x k l Hsub IH|x k l Hsub IH]; intros Hl; [done|..];
    apply StronglySorted_inv in Hl as [Hl Hx].
  - constructor; [by apply IH|]. apply Forall_forall. intros y Hy.
    apply (proj1 (Forall_forall _ _) Hx). by eapply elem_of_sublist.
  - by apply IH.
Qed.

Lemma sorted_three (a b c : Z) (l : list Z) :
  [a; b; c] `sublist_of` l → Sorted Z.le l → a ≤ b ≤ c.
Proof.
  intros Hsub Hl.
  apply Sorted_StronglySorted in Hl; [|intros x y z; lia].
  apply (sorted_sublist _ _ Hsub) in Hl.
  apply StronglySorted_inv in Hl as [Hl Ha].
  apply StronglySorted_inv in Hl as [_ Hb].
  apply Forall_inv in Ha. apply Forall_inv in Hb. done.
Qed.

(** X5: the circuit never opens without cause.  In every server reachable
    from boot, every entry of the window is a failure that was recorded, no
    more often than it was recorded.  If moreover the circuit is open and the
    clock readings of the events handled so far are non-decreasing, then
    three of the failures recorded so far, [a] then [b] then [c] in the order
    they were recorded, satisfy [a <= b <= c] and [c - a <= FAILURE_WINDOW]:
    all three lie in one interval of length [FAILURE_WINDOW]. *)
Theorem open_circuit_has_three_failures (es : list event) (s : server) :
  run es boot = Some s →
  failureTimestamps (state s) `sublist_of` failures es ∧
  (circuitOpen (state s) = true → Sorted Z.le (all_stamps es) →
   ∃ a b c, [a; b; c] `sublist_of` failures es ∧
            a ≤ b ≤ c ∧ c - a ≤ FAILURE_WINDOW).
Proof.
  intros Hrun. destruct (run_window_recorded es s Hrun) as [Hsub Hburst].
  split; [done|]. intros Hopen Hchron.
  destruct (Hburst Hopen) as (a & b & c & Habc & Hw).
  exists a, b, c. split_and!; [done| | |done];
    apply (sorted_three a b c (all_stamps es)); try done;
    (etrans; [exact Habc|apply failures_sublist_stamps]).
Qed.

Lemma open_circuit_has_three_failures_witness :
  let es := [RequestArrived; RequestArrived; RequestArrived;
             RequestFailed 0; RequestFailed 1000; RequestFailed 2000] in
  ∃ s, run es boot = Some s ∧ circuitOpen (state s) = true ∧
       Sorted Z.le (all_stamps es) ∧
       ∃ a b c, [a; b; c] `sublist_of` failures es ∧
                a ≤ b ≤ c ∧ c - a ≤ FAILURE_WINDOW.
Proof.
  intros es.
  assert (Sorted Z.le (all_stamps es)) as Hchron by (repeat constructor; done).
  eexists. split; [reflexivity|]. split; [reflexivity|].
  split; [exact Hchron|].
  eapply (open_circuit_has_three_failures es); [reflexivity..|exact Hchron].
Defined.

Lemma step_timers_backoff e s s' :
  step e s = Some s' →
  Forall (λ t, delay t = BACKOFF_TIME) (timers s) →
  Forall (λ t, delay t = BACKOFF_TIME) (timers s').
Proof.
  intros Hstep Hts.
  destruct e as [|now|now now'|now|i|i r|i]; simpl in *.
  - destruct (circuitOpen (state s)); by injection Hstep as <-.
  - destruct (inflight s); [done|]. by injection Hstep as <-.
  - destruct (inflight s); [done|].
    destruct (on_failure_armed now' (on_success now (state s)))
      as [Ha|(_ & _ & _ & Ha)];
      destruct (on_failure now' _) as [[b1 armed] logged];
      injection Hstep as <-; simpl in *; subst armed;
      apply Forall_app; split; by repeat constructor.
  - destruct (inflight s); [done|].
    destruct (on_failure_armed now (state s)) as [Ha|(_ & _ & _ & Ha)];
      destruct (on_failure now _) as [[b1 armed] logged];
      injection Hstep as <-; simpl in *; subst armed;
      apply Forall_app; split; by repeat constructor.
  - destruct (timers s !! i); [|done]. injection Hstep as <-. simpl.
    rewrite delete_take_drop. apply Forall_app.
    split; [by apply Forall_take|by apply Forall_drop].
  - destruct (probes s !! i) as [[cb|cb recovered]|]; try done.
    destruct (probe_settled r (state s)) as [[recovered b1] logged].
    by injection Hstep as <-.
  - destruct (probes s !! i) as [[cb|cb [|]]|]; try done.
    + rewrite callback_resumed_recovered in Hstep. injection Hstep as <-.
      simpl. by rewrite app_nil_r.
    + rewrite callback_resumed_failed in Hstep. injection Hstep as <-.
      simpl. apply Forall_app. split; by repeat constructor.
Qed.

Lemma run_timers_backoff es s s' :
  run es s = Some s' →
  Forall (λ t, delay t = BACKOFF_TIME) (timers s) →
  Forall (λ t, delay t = BACKOFF_TIME) (timers s').
Proof.
  revert s. induction es as [|e es IH]; intros s Hrun Hts; simpl in Hrun.
  - by injection Hrun as <-.
  - destruct (step e s) as [s1|] eqn:Hstep; [|done].
    apply (IH s1); [done|]. by eapply step_timers_backoff.
Qed.

(** X6: the breaker cannot be left open with nothing to close it.  In every
    server reachable from boot an open circuit has exactly one probe pending
    (an armed timer, or a fired one whose callback has not finished), a
    closed circuit has none, no armed timer and a null probe handle, and
    every armed timer was given the delay [BACKOFF_TIME]. *)
Theorem open_circuit_always_has_a_probe (es : list event) (s : server) :
  run es boot = Some s →
  (circuitOpen (state s) = true → pending s = 1%nat) ∧
  (circuitOpen (state s) = false →
   nextProbe (state s) = None ∧ timers s = [] ∧ pending s = 0%nat) ∧
  Forall (λ t, delay t = BACKOFF_TIME) (timers s).
Proof.
  intros Hrun.
  pose proof (run_consistent es boot s boot_consistent Hrun) as Hc.
  unfold consistent, agrees in Hc.
  split_and!.
  - intros Ho. by rewrite Ho in Hc.
  - intros Ho. rewrite Ho in Hc. destruct Hc as [Hn Hp].
    split_and!; [done| |done]. rewrite pending_eq in Hp.
    apply nil_length_inv. lia.
  - by apply (run_timers_backoff es boot s Hrun).
Qed.

Lemma open_circuit_always_has_a_probe_witness :
  let es := [RequestArrived; RequestArrived; RequestArrived;
             RequestFailed 0; RequestFailed 1000; RequestFailed 2000;
             TimerFired 0; ProbeSettled 0 unavailable_503] in
  ∃ s, run es boot = Some s ∧ circuitOpen (state s) = true ∧
       timers s = [] ∧ pending s = 1%nat.
Proof.
  intros es. eexists. split; [reflexivity|]. split; [reflexivity|].
  split; [reflexivity|].
  eapply (open_circuit_always_has_a_probe es); reflexivity.
Defined.

(** ** The window under a non-decreasing clock *)

Lemma all_stamps_snoc es e : all_stamps (es ++ [e]) = all_stamps es ++ stamps e.
Proof. unfold all_stamps. rewrite bind_app. simpl. by rewrite app_nil_r. Qed.

Lemma Z_le_strongly l : Sorted Z.le l ↔ StronglySorted Z.le l.
Proof.
  split; [|apply StronglySorted_Sorted].
  apply Sorted_StronglySorted. intros x y z. lia.
Qed.

Lemma prune_sorted now l : Sorted Z.le l → Sorted Z.le (prune now l).
Proof.
  rewrite !Z_le_strongly. destruct (prune_split now l) as (d & Hl & _).
  rewrite Hl at 1. apply StronglySorted_app_1_r.
Qed.

Lemma pruned_sorted_fresh now l :
  Sorted Z.le (prune now l) → Forall (fresh now) (prune now l).
Proof.
  intros Hs. destruct (prune now l) as [|h t] eqn:E; [constructor|].
  apply sorted_fresh_head; [done|]. by eapply prune_head_fresh.
Qed.

Lemma sorted_push l x :
  Sorted Z.le l → Forall (λ y, y ≤ x) l → Sorted Z.le (l ++ [x]).
Proof.
  rewrite !Z_le_strongly. intros Hl Hx. apply StronglySorted_app_2; [|done|].
  - intros y z Hy ->%list_elem_of_singleton.
    by apply (proj1 (Forall_forall _ _) Hx).
  - by repeat constructor.
Qed.

Lemma sorted_below_last l now :
  Sorted Z.le l → last l = Some now → Forall (λ x, x ≤ now) l.
Proof.
  rewrite Z_le_strongly. intros Hl Hlast.
  destruct l as [|y l] using rev_ind; [done|].
  rewrite last_snoc in Hlast. injection Hlast as ->.
  apply StronglySorted_app in Hl as (Hle & _ & _).
  apply Forall_app. split; [|by repeat constructor].
  apply Forall_forall. intros x Hx. apply Hle; [done|]. by left.
Qed.

(** Under a non-decreasing clock every block keeps the window sorted and
    made of clock readings already seen. *)
Lemma step_window_sorted e s s' (seen : list Z) :
  step e s = Some s' →
  Sorted Z.le (seen ++ stamps e) →
  Sorted Z.le (failureTimestamps (state s)) →
  Forall (λ x, x ∈ seen) (failureTimestamps (state s)) →
  Sorted Z.le (failureTimestamps (state s')) ∧
  Forall (λ x, x ∈ seen ++ stamps e) (failureTimestamps (state s')).
Proof.
  intros Hstep Hchron Hsorted Hseen.
  assert (∀ l, Forall (λ x, x ∈ seen) l →
               Forall (λ x, x ∈ seen ++ stamps e) l) as Hweaken.
  { intros l Hl. eapply Forall_impl; [exact Hl|].
    intros x Hx. apply elem_of_app. by left. }
  assert (∀ now, now ∈ stamps e →
            Forall (λ y, y ≤ now) (failureTimestamps (state s))) as Hbelow.
  { intros now Hnow. apply Z_le_strongly, StronglySorted_app in Hchron
      as (Hle & _ & _).
    eapply Forall_impl; [exact Hseen|]. intros x Hx. by apply Hle. }
  assert (∀ now l, Forall (λ x, x ∈ seen ++ stamps e) l →
            Forall (λ x, x ∈ seen ++ stamps e) (prune now l)) as Hprune.
  { intros now l Hl. destruct (prune_split now l) as (d & Heq & _).
    rewrite Heq in Hl. by apply Forall_app in Hl as [_ ?]. }
  assert (∀ now l, Forall (λ y, y ≤ now) l →
            Forall (λ y, y ≤ now) (prune now l)) as Hprune_le.
  { intros now l Hl. destruct (prune_split now l) as (d & Heq & _).
    rewrite Heq in Hl. by apply Forall_app in Hl as [_ ?]. }
  destruct e as [|now|now now'|now|i|i r|i]; simpl in Hstep.
  - destruct (circuitOpen (state s)); injection Hstep as <-; auto.
  - destruct (inflight s); [done|]. injection Hstep as <-. simpl.
    split; [by apply prune_sorted|]. by apply Hprune, Hweaken.
  - destruct (inflight s); [done|].
    pose proof (on_failure_window now' (on_success now (state s))) as Hw.
    destruct (on_failure now' _) as [[b1 armed] logged].
    injection Hstep as <-. simpl in *. rewrite Hw. split.
    + apply prune_sorted, sorted_push; [by apply prune_sorted|].
      assert (now ≤ now') as Hnn.
      { apply Z_le_strongly, StronglySorted_app_1_r in Hchron.
        apply StronglySorted_cons in Hchron as [Hle _].
        by apply Forall_inv in Hle. }
      eapply Forall_impl; [apply Hprune_le, Hbelow; set_solver|].
      intros x Hx. simpl in Hx. lia.
    + apply Hprune, Forall_app. split; [by apply Hprune, Hweaken|].
      constructor; [set_solver|done].
  - destruct (inflight s); [done|].
    pose proof (on_failure_window now (state s)) as Hw.
    destruct (on_failure now _) as [[b1 armed] logged].
    injection Hstep as <-. simpl in *. rewrite Hw. split.
    + apply prune_sorted, sorted_push; [done|]. apply Hbelow. set_solver.
    + apply Hprune, Forall_app. split; [by apply Hweaken|].
      constructor; [set_solver|done].
  - destruct (timers s !! i); [|done]. injection Hstep as <-. auto.
  - destruct (probes s !! i) as [[cb|cb recovered]|]; try done.
    destruct r as [e|[] status json]; injection Hstep as <-; simpl; auto.
  - destruct (probes s !! i) as [[cb|cb [|]]|]; try done.
    + rewrite callback_resumed_recovered in Hstep. injection Hstep as <-. auto.
    + rewrite callback_resumed_failed in Hstep. injection Hstep as <-. auto.
Qed.

Lemma run_window_sorted es s :
  Sorted Z.le (all_stamps es) → run es boot = Some s →
  Sorted Z.le (failureTimestamps (state s)) ∧
  Forall (λ x, x ∈ all_stamps es) (failureTimestamps (state s)).
Proof.
  revert s. induction es as [|e es IH] using rev_ind; intros s' Hchron Hrun.
  { injection Hrun as <-. split; constructor. }
  apply run_snoc in Hrun as (s & Hrun & Hstep).
  rewrite all_stamps_snoc in Hchron |- *.
  destruct (IH s) as [Hsorted Hseen]; [|done|].
  { apply Z_le_strongly. apply Z_le_strongly in Hchron.
    by apply StronglySorted_app_1_l in Hchron. }
  by eapply step_window_sorted.
Qed.

(** X7: while the clock readings of the events handled are non-decreasing,
    the window of every server reachable from boot is in chronological order
    and holds only clock readings of those events; and if the last event
    handled was a request outcome, handled at [now], each entry [x] of the
    window lies within the window of [now]: [x <= now] and
    [now - x <= FAILURE_WINDOW]. *)
Theorem window_is_chronological_and_fresh (es : list event) (s : server) :
  Sorted Z.le (all_stamps es) →
  run es boot = Some s →
  Sorted Z.le (failureTimestamps (state s)) ∧
  Forall (λ x, x ∈ all_stamps es) (failureTimestamps (state s)) ∧
  ∀ es' e now, es = es' ++ [e] → last (stamps e) = Some now →
    Forall (λ x, x ≤ now ∧ now - x ≤ FAILURE_WINDOW)
           (failureTimestamps (state s)).
Proof.
  intros Hchron Hrun.
  destruct (run_window_sorted _ s Hchron Hrun) as [Hsorted Hseen].
  split; [done|]. split; [done|]. intros es' e now -> Hlast.
  assert (Forall (λ x, x ≤ now) (failureTimestamps (state s))) as Hbelow.
  { assert (last (all_stamps (es' ++ [e])) = Some now) as Hl.
    { rewrite all_stamps_snoc. destruct (stamps e) as [|x l] using rev_ind;
        [done|]. rewrite app_assoc, last_snoc. by rewrite last_snoc in Hlast. }
    pose proof (sorted_below_last _ _ Hchron Hl) as Hall.
    eapply Forall_impl; [exact Hseen|]. intros x Hx.
    by apply (proj1 (Forall_forall _ _) Hall). }
  assert (Forall (fresh now) (failureTimestamps (state s))) as Hfresh.
  { apply run_snoc in Hrun as (s0 & _ & Hstep).
    destruct e as [|t|t0 t|t|i|i r|i]; simpl in Hlast, Hstep; try done;
      injection Hlast as ->; (destruct (inflight s0); [done|]).
    - injection Hstep as <-. by apply pruned_sorted_fresh.
    - pose proof (on_failure_window now (on_success t0 (state s0))) as Hw.
      destruct (on_failure now _) as [[b1 armed] logged].
      injection Hstep as <-. simpl in *. rewrite Hw in Hsorted |- *.
      by apply pruned_sorted_fresh.
    - pose proof (on_failure_window now (state s0)) as Hw.
      destruct (on_failure now _) as [[b1 armed] logged].
      injection Hstep as <-. simpl in *. rewrite Hw in Hsorted |- *.
      by apply pruned_sorted_fresh. }
  apply Forall_and. by split.
Qed.

Lemma window_is_chronological_and_fresh_witness :
  let es' := [RequestArrived; RequestArrived; RequestArrived;
              RequestFailed 0; RequestFailed 20000] in
  let es := es' ++ [RequestFailed 31000] in
  let s := {| state := {| failureTimestamps := [20000; 31000];
                          circuitOpen := false; nextProbe := None |};
              timers := []; probes := []; inflight := 0 |} in
  Sorted Z.le (all_stamps es) ∧
  run es boot = Some s ∧
  last (stamps (RequestFailed 31000)) = Some 31000 ∧
  Sorted Z.le (failureTimestamps (state s)) ∧
  Forall (λ x, x ≤ 31000 ∧ 31000 - x ≤ FAILURE_WINDOW)
         (failureTimestamps (state s)).
Proof.
  intros es' es s.
  assert (Sorted Z.le (all_stamps es)) as Hchron by (repeat constructor; done).
  assert (run es boot = Some s) as Hrun by reflexivity.
  split; [exact Hchron|]. split; [exact Hrun|]. split; [reflexivity|].
  destruct (window_is_chronological_and_fresh es s Hchron Hrun)
    as (Hsorted & _ & Hfresh).
  split; [exact Hsorted|].
  exact (Hfresh es' (RequestFailed 31000) 31000 eq_refl eq_refl).
Defined.

(** ** Pruning composes *)

Lemma prune_prune now1 now2 l :
  now1 ≤ now2 → prune now2 (prune now1 l) = prune now2 l.
Proof.
  intros Hle. induction l as [|h l IH]; [done|].
  destruct (decide (stale now1 h)) as [Hs|Hs].
  - rewrite (prune_cons_stale now1) by done.
    rewrite (prune_cons_stale now2) by (unfold stale in *; lia). done.
  - by rewrite (prune_cons_fresh now1) by (unfold stale, fresh in *; lia).
Qed.

(** X8: pruning at a time and then at a later (or the same) time is pruning
    once at the later time, on any array, ordered or not; so the success
    branch run twice, at [now1 <= now2], leaves the breaker as one run at
    [now2] does, and a later prune never brings back or loses anything an
    earlier one decided. *)
Theorem pruning_twice_is_pruning_at_the_later_time (now1 now2 : Z)
    (b : breaker) :
  now1 ≤ now2 →
  prune now2 (prune now1 (failureTimestamps b))
  = prune now2 (failureTimestamps b) ∧
  on_success now2 (on_success now1 b) = on_success now2 b ∧
  (on_failure now2 (on_success now1 b)).1.1 = (on_failure now2 b).1.1.
Proof.
  intros Hle. split; [by apply prune_prune|]. split.
  - unfold on_success. simpl. by rewrite prune_prune.
  - assert (prune now2 (prune now1 (failureTimestamps b) ++ [now2])
            = prune now2 (failureTimestamps b ++ [now2])) as Heq.
    { destruct (prune_split now1 (failureTimestamps b)) as (d & Hl & Hd).
      rewrite Hl at 2. rewrite <- app_assoc.
      clear Hl. induction d as [|x d IH]; [done|].
      apply Forall_cons in Hd as [Hx Hd]. simpl app.
      rewrite (prune_cons_stale now2) by (unfold stale in *; lia). auto. }
    unfold on_failure. simpl. rewrite Heq.
    by destruct (_ && _), (nextProbe b).
Qed.

Lemma pruning_twice_is_pruning_at_the_later_time_witness :
  30500 ≤ 31500 ∧
  prune 31500 (prune 30500 (failureTimestamps tripped)) = [2000].
Proof.
  split; [done|].
  destruct (pruning_twice_is_pruning_at_the_later_time 30500 31500 tripped)
    as [-> _]; [done|reflexivity].
Defined.

(** ** The mock downstream *)

Lemma mock_addEvent_composes (requestBody : obj) (m : Mock.store) :
  Mock.accepting m = true →
  Mock.addEvent requestBody m
  = match Stores.addEventTouUser (requestBody !! "userId") (requestBody !! "id")
            (Mock.users m) with
    | Some users' =>
        (Mock.Json 200 {[ "success" := JBool true ]},
         {| Mock.requestCount := Mock.requestCount m + 1; Mock.users := users';
            Mock.events := Stores.addEvent requestBody (Mock.events m) |})
    | None =>
        (Mock.Threw (TypeError "Cannot read properties of undefined (reading 'events')"),
         {| Mock.requestCount := Mock.requestCount m + 1;
            Mock.users := Mock.users m;
            Mock.events := Stores.addEvent requestBody (Mock.events m) |})
    end.
Proof.
  unfold Mock.accepting, Mock.addEvent, Stores.addEventTouUser, Stores.addEvent.
  intros ->. by destruct (Mock.users m !! _).
Qed.

Lemma mock_count_step (requestBody : obj) (m : Mock.store) :
  0 ≤ Mock.requestCount m < 15 →
  Mock.requestCount (Mock.addEvent requestBody m).2
  = (Mock.requestCount m + 1) `mod` 15 ∧
  ((Mock.addEvent requestBody m).1 = Mock.Json 503 Mock.unavailable
   ↔ 5 ≤ Mock.requestCount m).
Proof.
  intros Hrange. unfold Mock.addEvent.
  destruct (Z.leb_spec (Mock.requestCount m + 1) 5) as [Hle|Hgt]; simpl.
  - rewrite Z.mod_small by lia.
    destruct (Mock.users m !! _); simpl; (split; [done|]);
      (split; [intros [=]|lia]).
  - destruct (Z.eqb_spec (Mock.requestCount m + 1) 0) as [?|_]; [lia|].
    simpl. split; [|split; [lia|done]].
    destruct (Z.geb_spec (Mock.requestCount m + 1) 15) as [Hge|Hlt].
    + replace (Mock.requestCount m + 1) with 15 by lia. done.
    + by rewrite Z.mod_small by lia.
Qed.

Lemma serve_cons requestBody rest m :
  serve (requestBody :: rest) m
  = ((Mock.addEvent requestBody m).1 :: (serve rest (Mock.addEvent requestBody m).2).1,
     (serve rest (Mock.addEvent requestBody m).2).2).
Proof.
  cbn [serve]. destruct (Mock.addEvent requestBody m) as [r m1].
  cbn [fst snd]. by destruct (serve rest m1).
Qed.

(** X9: the mock refuses ten requests of every fifteen.  Started with a
    counter in [0, 15), after any requests the counter is the number of
    requests served modulo 15 (added to where it started), and the request
    served when the counter is [c] is answered 503 exactly when [c >= 5]:
    counting from the start of the mock, request number [n + 1] is refused
    exactly when [n mod 15 >= 5].  The test [requestCount == 0] never
    decides. *)
Theorem mock_refuses_ten_of_fifteen (bodies : list obj) (m : Mock.store) :
  0 ≤ Mock.requestCount m < 15 →
  Mock.requestCount (serve bodies m).2
  = (Mock.requestCount m + Z.of_nat (length bodies)) `mod` 15 ∧
  ∀ (n : nat) r, (serve bodies m).1 !! n = Some r →
    (r = Mock.Json 503 Mock.unavailable
     ↔ 5 ≤ (Mock.requestCount m + Z.of_nat n) `mod` 15).
Proof.
  revert m. induction bodies as [|requestBody rest IH]; intros m Hrange.
  { simpl. split; [|done]. rewrite Z.add_0_r. by rewrite Z.mod_small. }
  rewrite serve_cons. simpl fst. simpl snd.
  destruct (mock_count_step requestBody m Hrange) as [Hcount Hrefuse].
  destruct (IH (Mock.addEvent requestBody m).2) as [IHc IHr].
  { rewrite Hcount. apply Z.mod_pos_bound. lia. }
  split.
  - rewrite IHc, Hcount, Zplus_mod_idemp_l. f_equal. simpl length. lia.
  - intros [|n] r Hr; simpl in Hr.
    + injection Hr as <-. rewrite Z.add_0_r, Z.mod_small by done. done.
    + rewrite (IHr n r Hr), Hcount, Zplus_mod_idemp_l.
      by replace (Mock.requestCount m + 1 + Z.of_nat n)
        with (Mock.requestCount m + Z.of_nat (S n)) by lia.
Qed.

Lemma mock_refuses_ten_of_fifteen_witness :
  0 ≤ Mock.requestCount Mock.start < 15 ∧
  Mock.requestCount (serve (replicate 17 probe_payload) Mock.start).2 = 2.
Proof.
  assert (0 ≤ Mock.requestCount Mock.start < 15) as Hrange by (simpl; lia).
  split; [exact Hrange|].
  destruct (mock_refuses_ten_of_fifteen (replicate 17 probe_payload) Mock.start
              Hrange) as [-> _].
  reflexivity.
Defined.



(** X11: when the mock accepts an event whose [userId] names no user, the
    resolver throws, yet the event is already in the event store and the
    request is counted; no user is changed.  A request that fails this way
    leaves an event behind that belongs to nobody. *)
Theorem mock_unknown_user_leaves_event_behind (requestBody : obj)
    (m : Mock.store) :
  Mock.accepting m = true →
  Stores.getUser (requestBody !! "userId") (Mock.users m) = None →
  (∃ e, (Mock.addEvent requestBody m).1 = Mock.Threw e) ∧
  Stores.getEvent (requestBody !! "id") (Mock.events (Mock.addEvent requestBody m).2)
  = Some requestBody ∧
  Mock.users (Mock.addEvent requestBody m).2 = Mock.users m ∧
  Mock.requestCount (Mock.addEvent requestBody m).2 = Mock.requestCount m + 1.
Proof.
  intros Hacc Hu. rewrite mock_addEvent_composes by done.
  unfold Stores.getUser in Hu. unfold Stores.addEventTouUser. rewrite Hu.
  unfold Stores.getEvent, Stores.addEvent. simpl.
  split_and!; [by eexists|apply lookup_insert_eq|done..].
Qed.

Lemma mock_unknown_user_leaves_event_behind_witness :
  let requestBody : obj := {[ "name" := JStr "hello"; "userId" := JStr "7" ]} in
  Mock.accepting Mock.start = true ∧
  Stores.getUser (requestBody !! "userId") (Mock.users Mock.start) = None ∧
  Stores.getEvent None (Mock.events (Mock.addEvent requestBody Mock.start).2)
  = Some requestBody.
Proof.
  intros requestBody. split; [reflexivity|]. split; [reflexivity|].
  eapply (mock_unknown_user_leaves_event_behind requestBody Mock.start);
    reflexivity.
Defined.

Lemma sent_body_own_id (payload : obj) (t : Z) (v : jsval) :
  payload !! "id" = Some v → sent_body (Some payload) t = payload.
Proof.
  intros Hid. unfold sent_body. rewrite spread_body_union. simpl.
  apply map_eq. intros key. destruct (payload !! key) as [x|] eqn:E.
  - by apply lookup_union_Some_l.
  - rewrite lookup_union_r by done. apply lookup_singleton_ne. congruence.
Qed.

Lemma sent_body_server_id (request_body : option obj) (t : Z) :
  default ∅ request_body !! "id" = None →
  sent_body request_body t !! "id" = Some (JNum t).
Proof.
  intros Hid. unfold sent_body. rewrite spread_body_union.
  rewrite lookup_union_r by done. apply lookup_singleton_eq.
Qed.

(** X12: a payload that brings its own [id] is sent downstream unchanged,
    whatever the clock reads, and when the mock accepts it the payload
    replaces whatever event was stored under that id. *)
Theorem client_id_overwrites_stored_event (payload : obj) (v : jsval) (t : Z)
    (m : Mock.store) :
  payload !! "id" = Some v →
  Mock.accepting m = true →
  sent_body (Some payload) t = payload ∧
  Stores.getEvent (Some v)
    (Mock.events (Mock.addEvent (sent_body (Some payload) t) m).2)
  = Some payload.
Proof.
  intros Hid Hacc. rewrite (sent_body_own_id payload t v Hid).
  split; [done|].
  destruct (mock_accepting_stores payload m Hacc) as [-> _].
  rewrite Hid. unfold Stores.getEvent. apply lookup_insert_eq.
Qed.

Lemma client_id_overwrites_stored_event_witness :
  let payload : obj :=
    {[ "id" := JStr "event-1"; "name" := JStr "mine"; "userId" := JStr "2" ]} in
  payload !! "id" = Some (JStr "event-1") ∧
  Mock.accepting Mock.start = true ∧
  Stores.getEvent (Some (JStr "event-1")) (Mock.events Mock.start)
  = Some (Mock.event 1 "Event 1" 1) ∧
  Stores.getEvent (Some (JStr "event-1"))
    (Mock.events (Mock.addEvent (sent_body (Some payload) 1700000000000)
                    Mock.start).2)
  = Some payload.
Proof.
  intros payload. split; [reflexivity|]. split; [reflexivity|].
  split; [reflexivity|].
  eapply (client_id_overwrites_stored_event payload (JStr "event-1")
            1700000000000 Mock.start); reflexivity.
Defined.

(** X13: the server-assigned id is the clock reading, so two payloads without
    an [id] whose attempts read the same millisecond are sent with the same
    id; when the mock accepts both, the event store holds the second under
    that id and gains one event, not two. *)
Theorem same_millisecond_same_event_id (p1 p2 : option obj) (t : Z)
    (m : Mock.store) :
  default ∅ p1 !! "id" = None → default ∅ p2 !! "id" = None →
  Mock.accepting m = true →
  Mock.accepting (Mock.addEvent (sent_body p1 t) m).2 = true →
  sent_body p1 t !! "id" = sent_body p2 t !! "id" ∧
  Mock.events (Mock.addEvent (sent_body p2 t)
                 (Mock.addEvent (sent_body p1 t) m).2).2
  = <[pretty t := sent_body p2 t]> (Mock.events m) ∧
  Stores.getEvent (Some (JNum t))
    (Mock.events (Mock.addEvent (sent_body p2 t)
                    (Mock.addEvent (sent_body p1 t) m).2).2)
  = Some (sent_body p2 t).
Proof.
  intros H1 H2 Hacc1 Hacc2.
  pose proof (sent_body_server_id p1 t H1) as Hid1.
  pose proof (sent_body_server_id p2 t H2) as Hid2.
  destruct (mock_accepting_stores (sent_body p2 t) _ Hacc2) as [-> _].
  destruct (mock_accepting_stores (sent_body p1 t) m Hacc1) as [-> _].
  rewrite Hid1, Hid2. simpl. unfold Stores.getEvent. simpl.
  rewrite insert_insert_eq. split_and!; [done..|apply lookup_insert_eq].
Qed.

Lemma same_millisecond_same_event_id_witness :
  let p1 : option obj := Some {[ "name" := JStr "first"; "userId" := JStr "1" ]} in
  let p2 : option obj := Some {[ "name" := JStr "second"; "userId" := JStr "2" ]} in
  default ∅ p1 !! "id" = None ∧ default ∅ p2 !! "id" = None ∧
  Mock.accepting Mock.start = true ∧
  Mock.accepting (Mock.addEvent (sent_body p1 1700000000000) Mock.start).2 = true ∧
  Stores.getEvent (Some (JNum 1700000000000))
    (Mock.events (Mock.addEvent (sent_body p2 1700000000000)
                    (Mock.addEvent (sent_body p1 1700000000000) Mock.start).2).2)
  = Some (sent_body p2 1700000000000).
Proof.
  intros p1 p2. split; [reflexivity|]. split; [reflexivity|].
  split; [reflexivity|]. split; [reflexivity|].
  eapply (same_millisecond_same_event_id p1 p2 1700000000000 Mock.start);
    reflexivity.
Defined.

Lemma mock_addEvent_keeps_unknown (requestBody : obj) (m : Mock.store) key :
  Mock.users m !! key = None →
  Mock.users (Mock.addEvent requestBody m).2 !! key = None.
Proof.
  intros Hkey. unfold Mock.addEvent. destruct (_ || _); [|done].
  destruct (Mock.users m !! Mock.property_key _) as [u|] eqn:Hu; [|done].
  simpl. rewrite lookup_insert_ne; [done|]. congruence.
Qed.

Lemma serve_keeps_unknown (bodies : list obj) (m : Mock.store) key :
  Mock.users m !! key = None → Mock.users (serve bodies m).2 !! key = None.
Proof.
  revert m. induction bodies as [|requestBody rest IH]; intros m Hkey; [done|].
  rewrite serve_cons. simpl. by apply IH, mock_addEvent_keeps_unknown.
Qed.

(** X14: the mock never creates a user: a name unknown to [userStore] stays
    unknown whatever requests are served.  With the stores as the module
    initialises them there is no user [probe], so after any requests the
    probe payload is never answered 200: the resolver refuses it with 503 or
    throws. *)
Theorem mock_never_answers_the_probe_ok (bodies : list obj) (m : Mock.store)
    (key : string) :
  Mock.users m !! key = None →
  Mock.users (serve bodies m).2 !! key = None ∧
  (key = "probe" →
   ∀ status json,
     (Mock.addEvent probe_payload (serve bodies m).2).1 = Mock.Json status json →
     status = 503).
Proof.
  intros Hkey. pose proof (serve_keeps_unknown bodies m key Hkey) as Hafter.
  split; [done|]. intros -> status json.
  unfold Mock.addEvent. destruct (_ || _); [|by intros [= <- _]].
  rewrite probe_payload_userId. simpl. by rewrite Hafter.
Qed.

Lemma mock_never_answers_the_probe_ok_witness :
  Mock.users Mock.start !! "probe" = None ∧
  Mock.users (serve [probe_payload; probe_payload] Mock.start).2 !! "probe" = None.
Proof.
  split; [reflexivity|].
  apply (mock_never_answers_the_probe_ok [probe_payload; probe_payload]
           Mock.start "probe"). reflexivity.
Defined.

(** ** The timer callback and the event loop *)

Section CallbackInGeneral.
Context {World : Type} `{Host World}.

(** X15: run without interruption, a timer callback changes the breaker and
    arms timers exactly as three events of the event loop do: the timer
    fires, the probe settles as the host's fetch of the probe request does,
    and the callback resumes. *)
Theorem timer_callback_is_three_loop_events (s : server) (i : nat) (t : timer)
    (w : World) :
  timers s !! i = Some t →
  run [TimerFired i;
       ProbeSettled (length (probes s)) (fetch probe_request w).1;
       ProbeResumed (length (probes s))] s
  = Some {| state := (timer_callback (handler t) (state s) w).1.1.1;
            timers := delete i (timers s)
                      ++ (timer_callback (handler t) (state s) w).1.1.2;
            probes := probes s; inflight := inflight s |}.
Proof.
  intros Hi.
  change (run (?e :: ?rest) s) with
    (match step e s with Some s1 => run rest s1 | None => None end).
  simpl step. rewrite Hi.
  rewrite (settle_and_resume _ (length (probes s)) (handler t))
    by (simpl; apply list_lookup_middle; done).
  unfold timer_callback, probeExternalService, mbind, Eff_bind, bind, do_fetch,
    emit_all, mret, Eff_ret, ret.
  destruct (fetch probe_request w) as [r w1]. simpl.
  destruct (probe_settled r (state s)) as [[recovered b1] logged]. simpl.
  destruct (callback_resumed (handler t) recovered b1) as [b2 armed].
  simpl. f_equal. f_equal.
  assert (∀ {X} (l : list X) x, delete (length l) (l ++ [x]) = l) as Hdel.
  { intros X l x. induction l as [|y l IH]; [done|]. simpl. by rewrite IH. }
  apply Hdel.
Qed.

End CallbackInGeneral.

Lemma timer_callback_is_three_loop_events_witness :
  let s := {| state := tripped; timers := [setTimeout retry BACKOFF_TIME];
              probes := []; inflight := 0 |} in
  let w := {| time := 62000; script := [created_200] |} in
  timers s !! 0%nat = Some (setTimeout retry BACKOFF_TIME) ∧
  run [TimerFired 0; ProbeSettled 0 created_200; ProbeResumed 0] s = Some boot.
Proof.
  intros s w. split; [reflexivity|].
  exact (timer_callback_is_three_loop_events (World := scripted) s 0
           (setTimeout retry BACKOFF_TIME) w eq_refl).
Defined.

(** ** The handler against a downstream that is down, or up *)

Section HandlerUnderHosts.
Context {World : Type} `{Host World}.
Implicit Types (w : World) (b : breaker) (request_body : option obj).

Lemma downstream_call_fails request_body w :
  recovers (fetch {| url := addEvent_url; method := "POST";
                     body := sent_body request_body (clock w).1 |}
              (clock w).2).1 = false →
  ∃ e w' fx, downstream_call request_body w = (inr e, w', fx).
Proof.
  rewrite downstream_call_eq. unfold sent_body.
  destruct (clock w) as [t w1]. simpl.
  destruct (fetch _ w1) as [[e|[] status json] w2]; simpl; [|done|];
    intros _; by eexists _, _, _.
Qed.

(** X16: while the circuit is closed and the downstream refuses every call
    (no response with [ok] set), a request costs exactly four downstream
    calls and the three delays 1000, 2000 and 4000 ms, is answered
    [RetriesExhausted], and records exactly one failure: the breaker changes
    as by one run of the failure branch. *)
Theorem outage_costs_four_calls_and_one_failure request_body b w :
  circuitOpen b = false →
  (∀ req w', recovers (fetch req w').1 = false) →
  length (fetches (addEvent request_body b w).2) = 4%nat ∧
  sleeps (addEvent request_body b w).2 = [1000; 2000; 4000] ∧
  ∃ now, (addEvent request_body b w).1.1
         = (RetriesExhausted, (on_failure now b).1.1, (on_failure now b).1.2) ∧
         failureTimestamps (on_failure now b).1.1
         = prune now (failureTimestamps b ++ [now]).
Proof.
  intros Hclosed Hdown.
  destruct (addEvent_closed_cases request_body b w Hclosed)
    as (k & _ & Hf & Hs & _ & Hcases).
  destruct (retry_outcome_settles (downstream_call request_body)
              MAX_RETRIES INITIAL_RETRY_DELAY w)
    as (s & w' & fx & Hsettle & Hfn).
  destruct (downstream_call_fails request_body w' (Hdown _ _))
    as (e & w'' & fx' & Hfail).
  rewrite Hfail in Hfn. injection Hfn as <- _ _.
  destruct Hcases
    as [(d & now & _ & _ & Ho)|[(now & e' & Heq & -> & _)|(now & now' & _ & Ho)]];
    [by rewrite Ho in Hsettle| |by rewrite Ho in Hsettle].
  rewrite Hf, Hs. split_and!; [done..|].
  exists now. split; [done|]. apply on_failure_window.
Qed.

(** X17: while the circuit is closed, if the first downstream call of a
    request is answered with an [ok] response whose body [d] is not [null],
    the handler does exactly this: it invokes the operation once, which
    reads the clock and makes that one call, sleeps for no delay, reads the
    clock again, logs one line and answers with [d], the body that call
    returned.  It records no failure and arms nothing: the breaker is only
    pruned at the second clock reading. *)
Theorem healthy_downstream_costs_one_call request_body b w status d w1 :
  let req := {| url := addEvent_url; method := "POST";
                body := sent_body request_body (clock w).1 |} in
  circuitOpen b = false →
  fetch req (clock w).2 = (Response true status (inl d), w1) →
  d ≠ DNull →
  addEvent request_body b w
  = ((Sent d, on_success (clock w1).1 b, []), (clock w1).2,
     [EInvoke 0; EFetch req; ELog LInfo "Event added successfully"]) ∧
  fetches (addEvent request_body b w).2 = [req] ∧
  sleeps (addEvent request_body b w).2 = [].
Proof.
  intros req Hclosed Hfetch Hd.
  assert (addEvent request_body b w
          = ((Sent d, on_success (clock w1).1 b, []), (clock w1).2,
             [EInvoke 0; EFetch req; ELog LInfo "Event added successfully"]))
    as Heq.
  { unfold addEvent. rewrite Hclosed.
    unfold mbind, Eff_bind, bind, retryWithBackoff.
    rewrite retry_loop_eq, downstream_call_eq.
    destruct (decide (0 ≤ MAX_RETRIES)%nat) as [_|Hno];
      [|exfalso; apply Hno; unfold MAX_RETRIES; lia].
    subst req. unfold sent_body in Hfetch.
    destruct (clock w) as [t w0]. cbn [fst snd] in Hfetch.
    cbv zeta. rewrite Hfetch. cbn beta iota. cbn [negb].
    destruct (decide (0 < 0)%nat) as [?|_]; [lia|].
    unfold Date_now, log, emit, mret, Eff_ret, ret.
    destruct (clock w1) as [now w2]. cbn [fst snd].
    destruct d as [|o|v]; [done|..]; reflexivity. }
  rewrite Heq. done.
Qed.

End HandlerUnderHosts.

Lemma outage_costs_four_calls_and_one_failure_witness :
  let w := {| outage_time := 5000 |} in
  circuitOpen initial = false ∧
  (∀ req (w' : outage), recovers (fetch req w').1 = false) ∧
  length (fetches (addEvent None initial w).2) = 4%nat ∧
  (addEvent None initial w).1.1.1
  = (RetriesExhausted,
     {| failureTimestamps := [12400]; circuitOpen := false; nextProbe := None |}).
Proof.
  intros w.
  assert (∀ req (w' : outage), recovers (fetch req w').1 = false) as Hdown by done.
  split; [reflexivity|]. split; [exact Hdown|].
  destruct (outage_costs_four_calls_and_one_failure None initial w eq_refl Hdown)
    as (Hf & _ & _).
  split; [exact Hf|reflexivity].
Defined.

Lemma healthy_downstream_costs_one_call_witness :
  let w := {| healthy_time := 5000 |} in
  let req := {| url := addEvent_url; method := "POST";
                body := {[ "id" := JNum 5000 ]} |} in
  let d := DObject {[ "success" := JBool true ]} in
  circuitOpen initial = false ∧
  fetch req (clock w).2 = (Response true 200 (inl d), {| healthy_time := 5100 |}) ∧
  d ≠ DNull ∧
  addEvent None initial w
  = ((Sent d, initial, []), {| healthy_time := 5100 |},
     [EInvoke 0; EFetch req; ELog LInfo "Event added successfully"]).
Proof.
  intros w req d.
  assert (d ≠ DNull) as Hd by done.
  split; [reflexivity|]. split; [reflexivity|]. split; [exact Hd|].
  exact (proj1 (healthy_downstream_costs_one_call None initial w 200 d
                  {| healthy_time := 5100 |} eq_refl eq_refl Hd)).
Defined.
